(** * Energies, forces and the atomistic Hamiltonian of libra-code

    A shallow embedding of [src/dyn/Energy_and_Forces.cpp] and of
    [src/hamiltonian/Hamiltonian_Atomistic/Hamiltonian_Atomistic.cpp].

    Conventions.
    - A C++ [double] is a real number: arithmetic is exact, rounding is not
      modelled.  [std::complex<double>] is a pair of reals.
    - A C++ [int] is an integer of [Z]; the only product the code forms
      ([nnucl*nnucl]) is checked against the range of [int].
    - [std::vector<T>] is a [list T]; [v[i]] outside the vector has no
      defined behaviour and is the outcome [Fault].
    - A call that reaches [exit(c)] is the outcome [Exit c].
    - Objects reached through pointers are passed and returned explicitly. *)

From Stdlib Require Import Reals Lra ZArith String.
From stdpp Require Import base list.

Open Scope Z_scope.

(** ** Outcomes of a call *)

Inductive outcome (A : Type) : Type :=
| Ret (a : A)          (* the call returns *)
| Exit (status : Z)    (* the process ends through exit(status) *)
| Fault.               (* no defined behaviour: access outside a vector,
                          null pointer, overflow of a signed product *)

Arguments Ret {A} a.
Arguments Exit {A} status.
Arguments Fault {A}.

Definition bind {A B : Type} (m : outcome A) (k : A -> outcome B) : outcome B :=
  match m with
  | Ret a => k a
  | Exit c => Exit c
  | Fault => Fault
  end.

Notation "'do' x <- m ; k" := (bind m (fun x => k))
  (at level 10, x name, m at level 100, k at level 200).

(** [for(i=0;i<n;i++) body] over a state [S]. *)
Fixpoint for_each {S : Type} (body : Z -> S -> outcome S) (l : list Z) (s : S)
  : outcome S :=
  match l with
  | [] => Ret s
  | i :: l' => do s' <- body i s; for_each body l' s'
  end.

Definition range (n : Z) : list Z := map Z.of_nat (seq 0 (Z.to_nat n)).

Definition for_range {S : Type} (n : Z) (body : Z -> S -> outcome S) (s : S)
  : outcome S :=
  for_each body (range n) s.

(** [v[i]] read and [v[i] = x] write on a vector. *)
Definition at_ {A : Type} (v : list A) (i : Z) : outcome A :=
  if i <? 0 then Fault
  else match v !! Z.to_nat i with
       | Some x => Ret x
       | None => Fault
       end.

Definition store {A : Type} (v : list A) (i : Z) (x : A) : outcome (list A) :=
  if (0 <=? i) && (i <? Z.of_nat (length v))
  then Ret (<[Z.to_nat i := x]> v)
  else Fault.

(** ** Numbers *)

Record complex : Type := mkComplex { real : R; imag : R }.

(** Sum of [g i] for [i] in a list of indices. *)
Definition Rsum (g : Z -> R) (l : list Z) : R :=
  fold_right (fun i acc => (g i + acc)%R) 0%R l.

(** ** Nuclear and electronic variables (libnuclear, libelectronic)

    Only the members the energy and force routines touch. *)

Record Nuclear : Type := mkNuclear {
  mol_nnucl : Z;
  mol_q : list R;
  mol_p : list R;
  mol_f : list R;
  mol_mass : list R
}.

Definition with_f (f' : list R) (mol : Nuclear) : Nuclear :=
  {| mol_nnucl := mol_nnucl mol; mol_q := mol_q mol; mol_p := mol_p mol;
     mol_f := f'; mol_mass := mol_mass mol |}.

Definition with_p (p' : list R) (mol : Nuclear) : Nuclear :=
  {| mol_nnucl := mol_nnucl mol; mol_q := mol_q mol; mol_p := p';
     mol_f := mol_f mol; mol_mass := mol_mass mol |}.

Record Electronic : Type := mkElectronic {
  el_nstates : Z;
  el_istate : Z;
  el_q : list R;
  el_p : list R
}.

(** ** The Hamiltonian interface used by libdyn

    [Hamiltonian] is the abstract base class the dynamics routines receive
    by pointer.  Its source is not part of the files at hand, so the members
    called here are the methods of a class; the accessors [H], [Hvib] and
    [dHdq] only read the object. *)

Class Hamiltonian (Ham : Type) : Type := {
  set_q : list R -> Ham -> outcome Ham;
  compute : Ham -> outcome Ham;
  H : Ham -> Z -> Z -> complex;
  Hvib : Ham -> Z -> Z -> complex;
  dHdq : Ham -> Z -> Z -> Z -> complex
}.

Module libdyn.
Section Energy_and_Forces.

Context {Ham : Type} `{Hamiltonian Ham}.

Open Scope R_scope.

(** Lines 38-43 of Energy_and_Forces.cpp: the double loop that builds [Heff]. *)
Definition Heff_loop (el : Electronic) (ham : Ham) : outcome R :=
  for_range (el_nstates el) (fun i Heff =>
    for_range (el_nstates el) (fun j Heff =>
      do qi <- at_ (el_q el) i;
      do qj <- at_ (el_q el) j;
      do p_i <- at_ (el_p el) i;
      do pj <- at_ (el_p el) j;
      let Heff := Heff + 0.5 * real (Hvib ham i j) * (qi * qj + p_i * pj) in
      do p_i' <- at_ (el_p el) i;
      do qj' <- at_ (el_q el) j;
      Ret (Heff + imag (Hvib ham i j) * p_i' * qj')) Heff) 0.

Definition compute_potential_energy
  (mol : Nuclear) (el : Electronic) (ham : Ham) (opt : Z) : outcome (R * Ham) :=
  do ham <- set_q (mol_q mol) ham;
  do ham <- compute ham;
  if (opt =? 0)%Z then
    do Heff <- Heff_loop el ham;
    Ret (2 * Heff, ham)
  else if (opt =? 1)%Z then
    let i := el_istate el in
    Ret (real (H ham i i), ham)
  else Ret (0, ham).

(** [mol->f[k] -= x]. *)
Definition sub_at (f : list R) (k : Z) (x : R) : outcome (list R) :=
  do fk <- at_ f k;
  store f k (fk - x).

(** Lines 86-100: the accumulation of the mean-field forces. *)
Definition MF_force_loop (nnucl : Z) (el : Electronic) (ham : Ham) (f : list R)
  : outcome (list R) :=
  for_range (el_nstates el) (fun i f =>
    for_range (el_nstates el) (fun j f =>
      do qi <- at_ (el_q el) i;
      do qj <- at_ (el_q el) j;
      do p_i <- at_ (el_p el) i;
      do pj <- at_ (el_p el) j;
      let cij_re := qi * qj + p_i * pj in
      do p_i' <- at_ (el_p el) i;
      do qj' <- at_ (el_q el) j;
      let cij_im := p_i' * qj' in
      for_range nnucl (fun k f =>
        do f <- sub_at f k (2 * 0.5 * real (dHdq ham i j k) * cij_re);
        sub_at f k (2 * imag (dHdq ham i j k) * cij_im)) f) f) f.

(** Lines 109-111: the forces of the active surface. *)
Definition FSSH_force_loop (nnucl : Z) (el : Electronic) (ham : Ham) (f : list R)
  : outcome (list R) :=
  let i := el_istate el in
  for_range nnucl (fun k f => store f k (- real (dHdq ham i i k))) f.

(** [compute_forces].  The local [k] is declared at line 70 without a value
    and is first read by the loop of line 77, [mol->f[k] = 0.0], which runs
    over [i]: [k0] stands for the value [k] holds there. *)
Definition compute_forces
  (k0 : Z) (mol : Nuclear) (el : Electronic) (ham : Ham) (opt : Z)
  : outcome (Nuclear * Ham) :=
  do ham <- set_q (mol_q mol) ham;
  do ham <- compute ham;
  do f <- for_range (mol_nnucl mol) (fun i f => store f k0 0) (mol_f mol);
  if (opt =? 0)%Z then
    do f <- MF_force_loop (mol_nnucl mol) el ham f;
    Ret (with_f f mol, ham)
  else if (opt =? 1)%Z then
    do f <- FSSH_force_loop (mol_nnucl mol) el ham f;
    Ret (with_f f mol, ham)
  else Ret (with_f f mol, ham).

(** Lines 6-15: [compute_kinetic_energy]. *)
Definition compute_kinetic_energy (mol : Nuclear) : outcome R :=
  do Ekin <- for_range (mol_nnucl mol) (fun i Ekin =>
      do p1 <- at_ (mol_p mol) i;
      do p2 <- at_ (mol_p mol) i;
      do m <- at_ (mol_mass mol) i;
      Ret (Ekin + p1 * p2 / m)) 0;
  Ret (Ekin * 0.5).

(** Modelled from the spec: the Ensemble class of libensemble, "ordered
    collection of (NuclearState, ElectronicAmplitudes, EnergySurface)
    triples, one per trajectory"; the Hamiltonians of two trajectories are
    distinct objects. *)
Record Ensemble : Type := mkEnsemble {
  ens_ntraj : Z;
  ens_mol : list Nuclear;
  ens_el : list Electronic;
  ens_ham : list Ham
}.

(** Lines 124-143: [compute_energies].  The three results are [Epot], [Ekin]
    and [Etot]; the Hamiltonians are the ones the potential energies leave.
    The quotient by [(double)ens->ntraj] is the quotient of reals: for an
    ensemble without trajectories it has no meaning in the model. *)
Definition compute_energies (ens : Ensemble) (opt : Z)
  : outcome (R * R * R * list Ham) :=
  do r <- for_range (ens_ntraj ens) (fun traj '(Epot, Ekin, hams) =>
      do mol <- at_ (ens_mol ens) traj;
      do ek <- compute_kinetic_energy mol;
      do el <- at_ (ens_el ens) traj;
      do ham <- at_ hams traj;
      do r <- compute_potential_energy mol el ham opt;
      do hams <- store hams traj (snd r);
      Ret (Epot + fst r, Ekin + ek, hams)) (0, 0, ens_ham ens);
  let '(Epot, Ekin, hams) := r in
  let Epot := Epot / IZR (ens_ntraj ens) in
  let Ekin := Ekin / IZR (ens_ntraj ens) in
  Ret (Epot, Ekin, Ekin + Epot, hams).

End Energy_and_Forces.
End libdyn.

(** ** Dense real matrices (libmmath) *)

Module libmmath.

(** Modelled from the spec: the MATRIX class of libmmath, a linear-algebra
    primitive whose source is not among the files at hand.  A matrix is its
    two dimensions and the array [M] of its entries, row after row, so that
    [M[0]] is the entry (0,0).  The operations are the ones the Hamiltonian
    calls: construction followed by [= 0.0], [Init_Unit_Matrix], the
    transpose [T()] and the product [*] of
    "dH_adi[k] = Ct . dH_dia[k] . C". *)
Record MATRIX : Type := mkMATRIX {
  num_of_rows : Z;
  num_of_cols : Z;
  M : list R
}.

(** The [r*c] entries [g i j], row after row. *)
Definition entries (r c : Z) (g : Z -> Z -> R) : list R :=
  flat_map (fun i => map (g i) (range c)) (range r).

(** Modelled from the spec: the entry [(i,j)] of a MATRIX. *)
Definition get (m : MATRIX) (i j : Z) : R :=
  nth (Z.to_nat (i * num_of_cols m + j)) (M m) 0%R.

(** Modelled from the spec: the MATRIX built by [new MATRIX(r,c)] followed
    by [*m = 0.0]. *)
Definition MATRIX_zero (r c : Z) : MATRIX :=
  mkMATRIX r c (entries r c (fun _ _ => 0%R)).

(** Modelled from the spec: [MATRIX::Init_Unit_Matrix], [x] on the diagonal
    and zero elsewhere ("S = identity for orthogonal diabatic basis"). *)
Definition Init_Unit_Matrix (x : R) (m : MATRIX) : MATRIX :=
  mkMATRIX (num_of_rows m) (num_of_cols m)
    (entries (num_of_rows m) (num_of_cols m)
       (fun i j => if i =? j then x else 0%R)).

(** Modelled from the spec: [MATRIX::T], the transposed matrix. *)
Definition T (m : MATRIX) : MATRIX :=
  mkMATRIX (num_of_cols m) (num_of_rows m)
    (entries (num_of_cols m) (num_of_rows m) (fun i j => get m j i)).

(** Modelled from the spec: the product [*] of two MATRIX objects. *)
Definition mmul (a b : MATRIX) : MATRIX :=
  mkMATRIX (num_of_rows a) (num_of_cols b)
    (entries (num_of_rows a) (num_of_cols b)
       (fun i j => Rsum (fun k => (get a i k * get b k j)%R)
                        (range (num_of_cols a)))).

(** [m->M[0] = x]. *)
Definition set_M0 (x : R) (m : MATRIX) : outcome MATRIX :=
  do M' <- store (M m) 0 x;
  Ret (mkMATRIX (num_of_rows m) (num_of_cols m) M').

(** [v[i]->M[0] = x] on a vector of matrices. *)
Definition set_M0_at (v : list MATRIX) (i : Z) (x : R) : outcome (list MATRIX) :=
  do m <- at_ v i;
  do m' <- set_M0 x m;
  store v i m'.

(** Modelled from the spec: the VECTOR class of libmmath, three components. *)
Record VECTOR : Type := mkVECTOR { x : R; y : R; z : R }.

End libmmath.
Import libmmath.

Definition INT_MAX : Z := 2147483647.

(** The product of two [int]s. *)
Definition int_mul (a b : Z) : outcome Z :=
  if (- INT_MAX - 1 <=? a * b) && (a * b <=? INT_MAX) then Ret (a * b) else Fault.

(** [p->member] through a pointer that may not have been set. *)
Definition deref {A : Type} (p : option A) : outcome A :=
  match p with
  | Some a => Ret a
  | None => Fault
  end.

(** ** External collaborators of the atomistic Hamiltonian

    The chemical system, the molecular-mechanics interactions and the
    eigensolver are services whose sources are not among the files at hand.
    [calculate] returns the energy of one interaction; it reads the positions
    of the system, adds to its forces and may update the interaction.
    [solve_eigen n H S] returns the matrices [(E, C)] the solver writes. *)

Class MM_services : Type := {
  System : Type;
  Interaction : Type;
  set_atomic_q : list R -> System -> System;
  set_atomic_v : list R -> System -> System;
  zero_forces_and_torques : System -> System;
  Number_of_atoms : System -> Z;
  rb_force : System -> Z -> VECTOR;
  calculate : Interaction -> System -> R * (Interaction * System);
  solve_eigen : Z -> MATRIX -> MATRIX -> MATRIX * MATRIX
}.

Module libhamiltonian_atomistic.
Section Hamiltonian_Atomistic.

Context `{MM_services}.

Record listHamiltonian_MM : Type := mklistHamiltonian_MM {
  interactions : list Interaction
}.

(** The members of the class.  [mm_ham] and [_syst] are pointers: [None] is a
    pointer that has not been set.  The last two fields are bookkeeping, not
    members: [mm_allocs] counts the executions of [new listHamiltonian_MM()]
    and [calc_calls] the calls of [calculate] made on behalf of the object. *)
Record Hamiltonian_Atomistic : Type := mkHamiltonian_Atomistic {
  nelec : Z;
  nnucl : Z;
  ham_dia : MATRIX;
  ham_adi : MATRIX;
  d1ham_dia : list MATRIX;
  d1ham_adi : list MATRIX;
  d2ham_dia : list MATRIX;
  rep : Z;
  status_dia : Z;
  status_adi : Z;
  ham_types : list Z;
  mm_ham : option listHamiltonian_MM;
  q : list R;
  v : list R;
  _syst : option System;
  mm_allocs : nat;
  calc_calls : nat
}.

Definition with_ham_dia a h := mkHamiltonian_Atomistic
  (nelec h) (nnucl h) a (ham_adi h) (d1ham_dia h) (d1ham_adi h) (d2ham_dia h)
  (rep h) (status_dia h) (status_adi h) (ham_types h) (mm_ham h) (q h) (v h)
  (_syst h) (mm_allocs h) (calc_calls h).
Definition with_ham_adi a h := mkHamiltonian_Atomistic
  (nelec h) (nnucl h) (ham_dia h) a (d1ham_dia h) (d1ham_adi h) (d2ham_dia h)
  (rep h) (status_dia h) (status_adi h) (ham_types h) (mm_ham h) (q h) (v h)
  (_syst h) (mm_allocs h) (calc_calls h).
Definition with_d1ham_dia a h := mkHamiltonian_Atomistic
  (nelec h) (nnucl h) (ham_dia h) (ham_adi h) a (d1ham_adi h) (d2ham_dia h)
  (rep h) (status_dia h) (status_adi h) (ham_types h) (mm_ham h) (q h) (v h)
  (_syst h) (mm_allocs h) (calc_calls h).
Definition with_d1ham_adi a h := mkHamiltonian_Atomistic
  (nelec h) (nnucl h) (ham_dia h) (ham_adi h) (d1ham_dia h) a (d2ham_dia h)
  (rep h) (status_dia h) (status_adi h) (ham_types h) (mm_ham h) (q h) (v h)
  (_syst h) (mm_allocs h) (calc_calls h).
Definition with_d2ham_dia a h := mkHamiltonian_Atomistic
  (nelec h) (nnucl h) (ham_dia h) (ham_adi h) (d1ham_dia h) (d1ham_adi h) a
  (rep h) (status_dia h) (status_adi h) (ham_types h) (mm_ham h) (q h) (v h)
  (_syst h) (mm_allocs h) (calc_calls h).
Definition with_rep a h := mkHamiltonian_Atomistic
  (nelec h) (nnucl h) (ham_dia h) (ham_adi h) (d1ham_dia h) (d1ham_adi h)
  (d2ham_dia h) a (status_dia h) (status_adi h) (ham_types h) (mm_ham h) (q h)
  (v h) (_syst h) (mm_allocs h) (calc_calls h).
Definition with_status_dia a h := mkHamiltonian_Atomistic
  (nelec h) (nnucl h) (ham_dia h) (ham_adi h) (d1ham_dia h) (d1ham_adi h)
  (d2ham_dia h) (rep h) a (status_adi h) (ham_types h) (mm_ham h) (q h) (v h)
  (_syst h) (mm_allocs h) (calc_calls h).
Definition with_status_adi a h := mkHamiltonian_Atomistic
  (nelec h) (nnucl h) (ham_dia h) (ham_adi h) (d1ham_dia h) (d1ham_adi h)
  (d2ham_dia h) (rep h) (status_dia h) a (ham_types h) (mm_ham h) (q h) (v h)
  (_syst h) (mm_allocs h) (calc_calls h).
Definition with_ham_types a h := mkHamiltonian_Atomistic
  (nelec h) (nnucl h) (ham_dia h) (ham_adi h) (d1ham_dia h) (d1ham_adi h)
  (d2ham_dia h) (rep h) (status_dia h) (status_adi h) a (mm_ham h) (q h) (v h)
  (_syst h) (mm_allocs h) (calc_calls h).
Definition with_mm_ham a h := mkHamiltonian_Atomistic
  (nelec h) (nnucl h) (ham_dia h) (ham_adi h) (d1ham_dia h) (d1ham_adi h)
  (d2ham_dia h) (rep h) (status_dia h) (status_adi h) (ham_types h) a (q h)
  (v h) (_syst h) (mm_allocs h) (calc_calls h).
Definition with_q a h := mkHamiltonian_Atomistic
  (nelec h) (nnucl h) (ham_dia h) (ham_adi h) (d1ham_dia h) (d1ham_adi h)
  (d2ham_dia h) (rep h) (status_dia h) (status_adi h) (ham_types h) (mm_ham h)
  a (v h) (_syst h) (mm_allocs h) (calc_calls h).
Definition with_v a h := mkHamiltonian_Atomistic
  (nelec h) (nnucl h) (ham_dia h) (ham_adi h) (d1ham_dia h) (d1ham_adi h)
  (d2ham_dia h) (rep h) (status_dia h) (status_adi h) (ham_types h) (mm_ham h)
  (q h) a (_syst h) (mm_allocs h) (calc_calls h).
Definition with_syst a h := mkHamiltonian_Atomistic
  (nelec h) (nnucl h) (ham_dia h) (ham_adi h) (d1ham_dia h) (d1ham_adi h)
  (d2ham_dia h) (rep h) (status_dia h) (status_adi h) (ham_types h) (mm_ham h)
  (q h) (v h) a (mm_allocs h) (calc_calls h).
Definition with_mm_allocs a h := mkHamiltonian_Atomistic
  (nelec h) (nnucl h) (ham_dia h) (ham_adi h) (d1ham_dia h) (d1ham_adi h)
  (d2ham_dia h) (rep h) (status_dia h) (status_adi h) (ham_types h) (mm_ham h)
  (q h) (v h) (_syst h) a (calc_calls h).
Definition with_calc_calls a h := mkHamiltonian_Atomistic
  (nelec h) (nnucl h) (ham_dia h) (ham_adi h) (d1ham_dia h) (d1ham_adi h)
  (d2ham_dia h) (rep h) (status_dia h) (status_adi h) (ham_types h) (mm_ham h)
  (q h) (v h) (_syst h) (mm_allocs h) a.

(** The constructor: square zero matrices, both caches stale, no model
    selected.  The vectors of matrices are sized by [nnucl] and
    [nnucl*nnucl]; negative sizes are outside the model. *)
Definition Hamiltonian_Atomistic_new (_nelec _nnucl : Z)
  : outcome Hamiltonian_Atomistic :=
  if (_nelec <? 0) || (_nnucl <? 0) then Fault
  else
    do n2 <- int_mul _nnucl _nnucl;
    let zero := MATRIX_zero _nelec _nelec in
    Ret {| nelec := _nelec; nnucl := _nnucl;
           ham_dia := zero; ham_adi := zero;
           d1ham_dia := replicate (Z.to_nat _nnucl) zero;
           d1ham_adi := replicate (Z.to_nat _nnucl) zero;
           d2ham_dia := replicate (Z.to_nat n2) zero;
           rep := 0; status_dia := 0; status_adi := 0;
           ham_types := replicate 5 0;
           mm_ham := None; q := []; v := []; _syst := None;
           mm_allocs := 0; calc_calls := 0 |}.

(** Lines 68-84.  The text sent to [cout] is not modelled. *)
Definition set_Hamiltonian_type (ham_type : string) (h : Hamiltonian_Atomistic)
  : outcome Hamiltonian_Atomistic :=
  if String.eqb ham_type "MM" then
    let h := with_rep 0 h in
    do t0 <- at_ (ham_types h) 0;
    if t0 =? 0 then
      let h := with_mm_allocs (S (mm_allocs h))
                 (with_mm_ham (Some (mklistHamiltonian_MM [])) h) in
      do types <- store (ham_types h) 0 1;
      Ret (with_ham_types types h)
    else Ret h
  else Exit 0.

(** Lines 170-184.  [q_.size()!=nnucl] compares as [size_t]. *)
Definition set_q (q_ : list R) (h : Hamiltonian_Atomistic)
  : outcome Hamiltonian_Atomistic :=
  if negb (Z.of_nat (length q_) =? nnucl h mod 2 ^ 64) then Exit 0
  else
    let h := with_status_adi 0 (with_status_dia 0 (with_q q_ h)) in
    do syst <- deref (_syst h);
    Ret (with_syst (Some (set_atomic_q (q h) syst)) h).

(** Lines 186-200. *)
Definition set_v (v_ : list R) (h : Hamiltonian_Atomistic)
  : outcome Hamiltonian_Atomistic :=
  if negb (Z.of_nat (length v_) =? nnucl h mod 2 ^ 64) then Exit 0
  else
    let h := with_status_adi 0 (with_v v_ h) in
    do syst <- deref (_syst h);
    Ret (with_syst (Some (set_atomic_v (v h) syst)) h).

(** Lines 281-287: the energies of the interactions, summed in order.  The
    state of the loop is the sum, the interactions, the system and the
    number of calls of [calculate]. *)
Definition calculate_loop (its : list Interaction) (syst : System) (calls : nat)
  : outcome (R * list Interaction * System * nat) :=
  for_range (Z.of_nat (length its)) (fun i '(res, its, syst, calls) =>
    do it <- at_ its i;
    let '(e, (it', syst')) := calculate it syst in
    do its' <- store its i it';
    Ret ((res + e)%R, its', syst', S calls)) (0%R, its, syst, calls).

(** Lines 300-302 (and again 304-306): the three components of minus the
    force on atom [i] go to the entries [3i], [3i+1], [3i+2] of a vector of
    matrices. *)
Definition set_force_at (d1 : list MATRIX) (i : Z) (F : VECTOR)
  : outcome (list MATRIX) :=
  do d1 <- set_M0_at d1 (3 * i) (- x F)%R;
  do d1 <- set_M0_at d1 (3 * i + 1) (- y F)%R;
  set_M0_at d1 (3 * i + 2) (- z F)%R.

(** Lines 298-308: the atomistic forces become first derivatives, written to
    both representations. *)
Definition d1_loop (syst : System) (d1 : list MATRIX * list MATRIX)
  : outcome (list MATRIX * list MATRIX) :=
  for_range (Number_of_atoms syst) (fun i '(dia, adi) =>
    let F := rb_force syst i in
    do dia <- set_force_at dia i F;
    do adi <- set_force_at adi i F;
    Ret (dia, adi)) d1.

(** Lines 311-313. *)
Definition d2_loop (n2 : Z) (d2 : list MATRIX) : outcome (list MATRIX) :=
  for_range n2 (fun i d2 => set_M0_at d2 i 0%R) d2.

(** Lines 275-316: the molecular-mechanics model. *)
Definition compute_MM (h : Hamiltonian_Atomistic) : outcome Hamiltonian_Atomistic :=
  do syst <- deref (_syst h);
  let syst := zero_forces_and_torques syst in
  do mm <- deref (mm_ham h);
  do r <- calculate_loop (interactions mm) syst (calc_calls h);
  let '(res, its, syst, calls) := r in
  let h := with_calc_calls calls
             (with_mm_ham (Some (mklistHamiltonian_MM its))
                (with_syst (Some syst) h)) in
  do dia <- set_M0 res (ham_dia h);
  let h := with_ham_dia dia h in
  do adi <- set_M0 res (ham_adi h);
  let h := with_ham_adi adi h in
  do d1 <- d1_loop syst (d1ham_dia h, d1ham_adi h);
  let h := with_d1ham_adi (snd d1) (with_d1ham_dia (fst d1) h) in
  do n2 <- int_mul (nnucl h) (nnucl h);
  do d2 <- d2_loop n2 (d2ham_dia h);
  Ret (with_d2ham_dia d2 h).

(** Lines 270-329. *)
Definition compute_diabatic (h : Hamiltonian_Atomistic)
  : outcome Hamiltonian_Atomistic :=
  if status_dia h =? 0 then
    do t0 <- at_ (ham_types h) 0;
    do h <- (if t0 =? 1 then compute_MM h else Ret h);
    Ret (with_status_dia 1 h)
  else Ret h.

(** Lines 354-358: the matrix behind [d1ham_adi[n]] becomes the product of
    the transpose of [C], the matrix behind [d1ham_dia[n]] and [C]. *)
Definition transform_loop (n : Z) (C : MATRIX) (dia adi : list MATRIX)
  : outcome (list MATRIX) :=
  for_range n (fun n adi =>
    do D <- at_ dia n;
    store adi n (mmul (mmul (T C) D) C)) adi.

(** Lines 333-369. *)
Definition compute_adiabatic (h : Hamiltonian_Atomistic)
  : outcome Hamiltonian_Atomistic :=
  do h <- compute_diabatic h;
  if status_adi h =? 0 then
    let S := Init_Unit_Matrix 1 (MATRIX_zero (nelec h) (nelec h)) in
    let EC := solve_eigen (nelec h) (ham_dia h) S in
    let h := with_ham_adi (fst EC) h in
    do adi <- transform_loop (nnucl h) (snd EC) (d1ham_dia h) (d1ham_adi h);
    Ret (with_status_adi 1 (with_d1ham_adi adi h))
  else Ret h.

(** The matrix [m] with its first entry replaced by [a], and the component
    of the atomistic forces that belongs to the degree of freedom [n]. *)
Definition put0 (a : R) (m : MATRIX) : MATRIX :=
  mkMATRIX (num_of_rows m) (num_of_cols m) (<[0%nat := a]> (M m)).

Definition force_component (syst : System) (n : Z) : R :=
  let F := rb_force syst (n / 3) in
  if n mod 3 =? 0 then x F else if n mod 3 =? 1 then y F else z F.

(** A matrix with at least one entry. *)
Definition nonempty (m : MATRIX) : Prop := (0 < length (M m))%nat.

(** [written g b v' v]: the vector [v'] is [v] with the first entry of the
    matrix at every index [k] below [b] replaced by [g k]. *)
Definition written (g : Z -> R) (b : Z) (v' v : list MATRIX) : Prop :=
  length v' = length v /\
  forall k : nat,
    v' !! k = if Z.of_nat k <? b then put0 (g (Z.of_nat k)) <$> v !! k else v !! k.

(** What the constructor establishes about the sizes of the storage. *)
Definition square (n : Z) (m : MATRIX) : Prop :=
  num_of_rows m = n /\ num_of_cols m = n /\ length (M m) = Z.to_nat (n * n).

Record wf (h : Hamiltonian_Atomistic) : Prop := mkwf {
  wf_nelec : 0 <= nelec h;
  wf_nnucl : 0 <= nnucl h;
  wf_nnucl2 : nnucl h * nnucl h <= INT_MAX;
  wf_ham_dia : square (nelec h) (ham_dia h);
  wf_ham_adi : square (nelec h) (ham_adi h);
  wf_d1ham_dia_len : length (d1ham_dia h) = Z.to_nat (nnucl h);
  wf_d1ham_adi_len : length (d1ham_adi h) = Z.to_nat (nnucl h);
  wf_d2ham_dia_len : length (d2ham_dia h) = Z.to_nat (nnucl h * nnucl h);
  wf_d1ham_dia : Forall (square (nelec h)) (d1ham_dia h);
  wf_d1ham_adi : Forall (square (nelec h)) (d1ham_adi h);
  wf_d2ham_dia : Forall (square (nelec h)) (d2ham_dia h);
  wf_ham_types : length (ham_types h) = 5%nat
}.

(** A vector of [n] square matrices of dimension [k]. *)
Definition sized (n : nat) (k : Z) (v : list MATRIX) : Prop :=
  length v = n /\ Forall (square k) v.

(** [n] successive calls of [set_Hamiltonian_type] with the same selector. *)
Fixpoint set_Hamiltonian_type_times (n : nat) (ham_type : string)
  (h : Hamiltonian_Atomistic) : outcome Hamiltonian_Atomistic :=
  match n with
  | O => Ret h
  | S n' => do h' <- set_Hamiltonian_type ham_type h;
            set_Hamiltonian_type_times n' ham_type h'
  end.

(** The calls a user of the class can make, and a sequence of them run in
    order on one object. *)
Inductive call : Type :=
| Set_Hamiltonian_type (ham_type : string)
| Set_q (q_ : list R)
| Set_v (v_ : list R)
| Compute_diabatic
| Compute_adiabatic.

Definition run (c : call) (h : Hamiltonian_Atomistic)
  : outcome Hamiltonian_Atomistic :=
  match c with
  | Set_Hamiltonian_type ham_type => set_Hamiltonian_type ham_type h
  | Set_q q_ => set_q q_ h
  | Set_v v_ => set_v v_ h
  | Compute_diabatic => compute_diabatic h
  | Compute_adiabatic => compute_adiabatic h
  end.

Fixpoint run_all (cs : list call) (h : Hamiltonian_Atomistic)
  : outcome Hamiltonian_Atomistic :=
  match cs with
  | [] => Ret h
  | c :: cs' => do h' <- run c h; run_all cs' h'
  end.

(** The two flags take the values 0 and 1, and the adiabatic result is
    marked fresh only when the diabatic one is. *)
Definition flags_ok (h : Hamiltonian_Atomistic) : Prop :=
  (status_dia h = 0 \/ status_dia h = 1)
  /\ (status_adi h = 0 \/ status_adi h = 1)
  /\ (status_adi h = 1 -> status_dia h = 1).

(** An eigensolver that returns matrices of the dimension it is given. *)
Definition solver_sized : Prop :=
  forall n Hm S, 0 <= n -> square n Hm -> square n S ->
    square n (fst (solve_eigen n Hm S))
    /\ num_of_cols (snd (solve_eigen n Hm S)) = n.

End Hamiltonian_Atomistic.
End libhamiltonian_atomistic.

(** The same services with another eigensolver, and an object seen over
    them: every member is kept, only the solver a later call would reach is
    replaced. *)
Module other_solver.

Import libhamiltonian_atomistic.

Definition with_solver (s : MM_services)
    (f : Z -> MATRIX -> MATRIX -> MATRIX * MATRIX) : MM_services :=
  {| System := @System s;
     Interaction := @Interaction s;
     set_atomic_q := @set_atomic_q s;
     set_atomic_v := @set_atomic_v s;
     zero_forces_and_torques := @zero_forces_and_torques s;
     Number_of_atoms := @Number_of_atoms s;
     rb_force := @rb_force s;
     calculate := @calculate s;
     solve_eigen := f |}.

Definition over_MM {s : MM_services}
    (f : Z -> MATRIX -> MATRIX -> MATRIX * MATRIX)
    (mm : @listHamiltonian_MM s) : @listHamiltonian_MM (with_solver s f) :=
  @mklistHamiltonian_MM (with_solver s f) (@interactions s mm).

Definition over {s : MM_services}
    (f : Z -> MATRIX -> MATRIX -> MATRIX * MATRIX)
    (h : @Hamiltonian_Atomistic s) : @Hamiltonian_Atomistic (with_solver s f) :=
  @mkHamiltonian_Atomistic (with_solver s f)
    (nelec h) (nnucl h) (ham_dia h) (ham_adi h) (d1ham_dia h) (d1ham_adi h)
    (d2ham_dia h) (rep h) (status_dia h) (status_adi h) (ham_types h)
    (option_map (over_MM f) (mm_ham h)) (q h) (v h) (_syst h)
    (mm_allocs h) (calc_calls h).

End other_solver.

(** ** The formulas of the specification *)

Module spec.
Section formulas.

Context {Ham : Type} `{Hamiltonian Ham}.

Open Scope R_scope.

(** The mapped coordinates [(q_i, p_i)] of state [i]. *)
Definition q_ (el : Electronic) (i : Z) : R := nth (Z.to_nat i) (el_q el) 0.
Definition p_ (el : Electronic) (i : Z) : R := nth (Z.to_nat i) (el_p el) 0.

(** Kinetic energy: 0.5 * Sum_k p_k^2 / mass_k. *)
Definition Ekin_sum (mol : Nuclear) : R :=
  0.5 * Rsum (fun k => nth (Z.to_nat k) (mol_p mol) 0
                       * nth (Z.to_nat k) (mol_p mol) 0
                       / nth (Z.to_nat k) (mol_mass mol) 0)
             (range (mol_nnucl mol)).

(** Mean-field potential:
    2 * Sum_{i,j} [0.5*Re(Hvib_ij)*(q_i q_j + p_i p_j) + Im(Hvib_ij)*p_i q_j]. *)
Definition Epot_MF (el : Electronic) (ham : Ham) : R :=
  2 * Rsum (fun i => Rsum (fun j =>
        0.5 * real (Hvib ham i j) * (q_ el i * q_ el j + p_ el i * p_ el j)
        + imag (Hvib ham i j) * p_ el i * q_ el j)
      (range (el_nstates el))) (range (el_nstates el)).

(** The derivative of the mean-field form along the nuclear coordinate [k],
    with the derivative [dHdq] of the Hamiltonian in place of [Hvib]. *)
Definition dEdq_MF (el : Electronic) (ham : Ham) (k : Z) : R :=
  Rsum (fun i => Rsum (fun j =>
        2 * 0.5 * real (dHdq ham i j k) * (q_ el i * q_ el j + p_ el i * p_ el j)
        + 2 * imag (dHdq ham i j k) * p_ el i * q_ el j)
      (range (el_nstates el))) (range (el_nstates el)).

(** Mean-field forces: [f[k] = - dE/dq_k] for every degree of freedom. *)
Definition forces_MF (nnucl : Z) (el : Electronic) (ham : Ham) : list R :=
  map (fun k => - dEdq_MF el ham k) (range nnucl).

(** Single-surface forces: [f[k] = -Re(dH[istate][istate][k])]. *)
Definition forces_FSSH (nnucl : Z) (el : Electronic) (ham : Ham) : list R :=
  map (fun k => - real (dHdq ham (el_istate el) (el_istate el) k)) (range nnucl).

End formulas.

(** The generalized eigenproblem [H * C = S * C * E]. *)
Definition eigen_equation (Hm S E C : MATRIX) : Prop :=
  mmul Hm C = mmul S (mmul C E).

End spec.

(** ** Small models used to run the code *)

Module models.

(** A Hamiltonian given by closed formulas of the indices: it accepts any
    coordinates and has nothing to recompute. *)
Record table_ham : Type := mk_table_ham { th_q : list R }.

#[export] Instance table_ham_Hamiltonian : Hamiltonian table_ham := {|
  set_q q' _ := Ret (mk_table_ham q');
  compute h := Ret h;
  H _ i j := mkComplex (IZR (i + 2 * j + 1)) 0;
  Hvib _ i j := mkComplex (IZR (i + j + 1)) (IZR (i - j));
  dHdq _ i j k := mkComplex (IZR (i + j + k + 1)) (IZR (i - j))
|}.

Definition mol2 : Nuclear :=
  mkNuclear 2 [0%R; 0%R] [0%R; 0%R] [5%R; 7%R] [1%R; 1%R].

(** Two degrees of freedom with momenta [3; 4] and masses [2; 4]. *)
Definition mol3 : Nuclear :=
  mkNuclear 2 [0%R; 0%R] [3%R; 4%R] [0%R; 0%R] [2%R; 4%R].

Definition el1 : Electronic := mkElectronic 1 0 [1%R] [0%R].

Definition el2 : Electronic := mkElectronic 2 1 [1%R; 2%R] [3%R; 1%R].

(** Two trajectories on the table Hamiltonian. *)
Definition ens2 : libdyn.Ensemble :=
  libdyn.mkEnsemble 2 [mol3; mol2] [el2; el2]
    [mk_table_ham []; mk_table_ham []].

(** A mocked molecular-mechanics model with a call counter: interaction
    [mi_atom] is the potential [E = x] of that atom, its force is [(-1,0,0)].
    The mocked eigensolver handles the problems that are diagonal already:
    it returns [E = H] and [C = S]. *)
Record mock_system : Type := mk_mock_system {
  ms_q : list R;
  ms_force : list VECTOR
}.

Record mock_interaction : Type := mk_mock_interaction {
  mi_atom : Z;
  mi_calls : nat
}.

Definition pull (F : VECTOR) : VECTOR := mkVECTOR (x F - 1)%R (y F) (z F).

#[export] Instance mock_services : MM_services := {|
  System := mock_system;
  Interaction := mock_interaction;
  set_atomic_q q' s := mk_mock_system q' (ms_force s);
  set_atomic_v _ s := s;
  zero_forces_and_torques s :=
    mk_mock_system (ms_q s) (map (fun _ => mkVECTOR 0 0 0) (ms_force s));
  Number_of_atoms s := Z.of_nat (length (ms_force s));
  rb_force s i := nth (Z.to_nat i) (ms_force s) (mkVECTOR 0 0 0);
  calculate it s :=
    (nth (Z.to_nat (3 * mi_atom it)) (ms_q s) 0%R,
     (mk_mock_interaction (mi_atom it) (S (mi_calls it)),
      mk_mock_system (ms_q s) (alter pull (Z.to_nat (mi_atom it)) (ms_force s))));
  solve_eigen _ Hm S := (Hm, S)
|}.

Import libhamiltonian_atomistic.

(** One electronic state, one atom, one interaction, coordinates set. *)
Definition one_atom : Hamiltonian_Atomistic :=
  let zero := MATRIX_zero 1 1 in
  {| nelec := 1; nnucl := 3;
     ham_dia := zero; ham_adi := zero;
     d1ham_dia := replicate 3 zero;
     d1ham_adi := replicate 3 zero;
     d2ham_dia := replicate 9 zero;
     rep := 0; status_dia := 0; status_adi := 0;
     ham_types := [1; 0; 0; 0; 0];
     mm_ham := Some (mklistHamiltonian_MM [mk_mock_interaction 0 0]);
     q := [4%R; 0%R; 0%R]; v := [];
     _syst := Some (mk_mock_system [4%R; 0%R; 0%R] [mkVECTOR 0 0 0]);
     mm_allocs := 1; calc_calls := 0 |}.

(** [one_atom] after [compute_diabatic]: the energy is the coordinate [x = 4]
    of the atom, the force on it is [(-1, 0, 0)]. *)
Definition pulled : mock_system :=
  mk_mock_system [4%R; 0%R; 0%R] [mkVECTOR (0 - 1) 0 0].

Definition one_atom_dia : Hamiltonian_Atomistic :=
  let zero := MATRIX_zero 1 1 in
  {| nelec := 1; nnucl := 3;
     ham_dia := mkMATRIX 1 1 [(0 + 4)%R]; ham_adi := mkMATRIX 1 1 [(0 + 4)%R];
     d1ham_dia := [mkMATRIX 1 1 [(- (0 - 1))%R]; mkMATRIX 1 1 [(- 0)%R];
                   mkMATRIX 1 1 [(- 0)%R]];
     d1ham_adi := [mkMATRIX 1 1 [(- (0 - 1))%R]; mkMATRIX 1 1 [(- 0)%R];
                   mkMATRIX 1 1 [(- 0)%R]];
     d2ham_dia := replicate 9 zero;
     rep := 0; status_dia := 1; status_adi := 0;
     ham_types := [1; 0; 0; 0; 0];
     mm_ham := Some (mklistHamiltonian_MM [mk_mock_interaction 0 1]);
     q := [4%R; 0%R; 0%R]; v := [];
     _syst := Some pulled;
     mm_allocs := 1; calc_calls := 1 |}.

(** The object the constructor builds for one state and three degrees of
    freedom, with a system attached. *)
Definition fresh : Hamiltonian_Atomistic :=
  let zero := MATRIX_zero 1 1 in
  {| nelec := 1; nnucl := 3;
     ham_dia := zero; ham_adi := zero;
     d1ham_dia := replicate 3 zero;
     d1ham_adi := replicate 3 zero;
     d2ham_dia := replicate 9 zero;
     rep := 0; status_dia := 0; status_adi := 0;
     ham_types := replicate 5 0;
     mm_ham := None; q := []; v := [];
     _syst := Some (mk_mock_system [] [mkVECTOR 0 0 0]);
     mm_allocs := 0; calc_calls := 0 |}.

(** An electronic object that declares two states and holds one
    coordinate. *)
Definition el_short : Electronic := mkElectronic 2 0 [1%R] [0%R; 0%R].

(** [one_atom] with a system of two atoms, and with no electronic state. *)
Definition two_atoms : Hamiltonian_Atomistic :=
  with_syst
    (Some (mk_mock_system [4%R; 0%R; 0%R; 1%R; 0%R; 0%R]
             [mkVECTOR 0 0 0; mkVECTOR 0 0 0]))
    one_atom.

Definition no_state : Hamiltonian_Atomistic :=
  let zero := MATRIX_zero 0 0 in
  {| nelec := 0; nnucl := 3;
     ham_dia := zero; ham_adi := zero;
     d1ham_dia := replicate 3 zero;
     d1ham_adi := replicate 3 zero;
     d2ham_dia := replicate 9 zero;
     rep := 0; status_dia := 0; status_adi := 0;
     ham_types := [1; 0; 0; 0; 0];
     mm_ham := Some (mklistHamiltonian_MM [mk_mock_interaction 0 0]);
     q := [4%R; 0%R; 0%R]; v := [];
     _syst := Some (mk_mock_system [4%R; 0%R; 0%R] [mkVECTOR 0 0 0]);
     mm_allocs := 1; calc_calls := 0 |}.

(** A step of dynamics seen from the Hamiltonian: new coordinates, the
    adiabatic surfaces, new velocities, the diabatic surfaces again. *)
Definition one_step : list call :=
  [Set_q [1%R; 2%R; 3%R]; Compute_adiabatic; Set_v [0%R; 0%R; 0%R];
   Compute_diabatic].

(** A solver that returns zero matrices whatever it is given. *)
Definition zero_solver (n : Z) (Hm S : MATRIX) : MATRIX * MATRIX :=
  (MATRIX_zero n n, MATRIX_zero n n).

(** The objects these runs end in ([one_atom] itself stands for a run that
    does not return). *)
Definition one_step_end : Hamiltonian_Atomistic :=
  match run_all one_step one_atom with Ret h => h | _ => one_atom end.

Definition one_atom_adi : Hamiltonian_Atomistic :=
  match compute_adiabatic one_atom with Ret h => h | _ => one_atom end.

Definition fresh_MM : Hamiltonian_Atomistic :=
  match set_Hamiltonian_type "MM" fresh with Ret h => h | _ => fresh end.

End models.

(** * Properties *)

(** ** Loops and vectors *)

Section loops.

Context {S : Type}.

Lemma for_each_app (body : Z -> S -> outcome S) (l1 l2 : list Z) (s : S) :
  for_each body (l1 ++ l2) s = (do s' <- for_each body l1 s; for_each body l2 s').
Proof.
  revert s. induction l1 as [|i l1 IH]; intros s; simpl; [reflexivity|].
  destruct (body i s); simpl; auto.
Qed.

Lemma range_nonpos (n : Z) : n <= 0 -> range n = [].
Proof.
  intros Hn. unfold range. replace (Z.to_nat n) with 0%nat by lia. reflexivity.
Qed.

Lemma range_succ (n : Z) : 0 <= n -> range (n + 1) = range n ++ [n].
Proof.
  intros Hn. unfold range.
  replace (Z.to_nat (n + 1)) with (Z.to_nat n + 1)%nat by lia.
  rewrite seq_app, map_app. simpl. do 2 f_equal. lia.
Qed.

Lemma in_range (n i : Z) : In i (range n) <-> 0 <= i < n.
Proof.
  unfold range. rewrite in_map_iff. split.
  - intros (k & <- & Hk). apply in_seq in Hk. lia.
  - intros Hi. exists (Z.to_nat i). split; [lia|]. apply in_seq. lia.
Qed.

Lemma length_range (n : Z) : length (range n) = Z.to_nat n.
Proof. unfold range. now rewrite length_map, length_seq. Qed.

Lemma lookup_range (n : Z) (k : nat) :
  (k < Z.to_nat n)%nat -> range n !! k = Some (Z.of_nat k).
Proof.
  intros Hk. unfold range. rewrite list_lookup_fmap, lookup_seq_lt by lia.
  reflexivity.
Qed.

(** The rule of the counting loop: an invariant [P i s] that holds before
    the iteration [i] and is carried by every iteration that runs. *)
Lemma for_range_inv (P : Z -> S -> Prop) (body : Z -> S -> outcome S)
    (n : Z) (s : S) :
  0 <= n ->
  P 0 s ->
  (forall i s, 0 <= i < n -> P i s ->
     exists s', body i s = Ret s' /\ P (i + 1) s') ->
  exists s', for_range n body s = Ret s' /\ P n s'.
Proof.
  intros Hn H0 Hstep.
  assert (Hall : forall m, 0 <= m -> m <= n ->
            exists s', for_range m body s = Ret s' /\ P m s').
  { intros m Hm. pattern m. apply natlike_ind; [| |exact Hm].
    - intros _. exists s. split; [reflexivity|exact H0].
    - intros k Hk IH Hle. destruct IH as (s1 & Hrun & HP); [lia|].
      destruct (Hstep k s1) as (s2 & Hbody & HP2); [lia|exact HP|].
      exists s2. split; [|exact HP2].
      unfold for_range in *. change (Z.succ k) with (k + 1).
      rewrite range_succ, for_each_app, Hrun by lia. simpl.
      rewrite Hbody. reflexivity. }
  apply Hall; lia.
Qed.

End loops.

Lemma for_each_accumulate (g : Z -> R) (body : Z -> R -> outcome R)
    (l : list Z) (a : R) :
  (forall i a, In i l -> body i a = Ret (a + g i)%R) ->
  for_each body l a = Ret (a + Rsum g l)%R.
Proof.
  revert a. induction l as [|i l IH]; intros a Hbody; simpl.
  - f_equal. lra.
  - rewrite Hbody by (left; reflexivity). simpl.
    rewrite IH by (intros; apply Hbody; right; assumption).
    f_equal. lra.
Qed.

Lemma at_nth {A : Type} (d : A) (v : list A) (i : Z) :
  0 <= i < Z.of_nat (length v) -> at_ v i = Ret (nth (Z.to_nat i) v d).
Proof.
  intros Hi. unfold at_.
  destruct (Z.ltb_spec i 0) as [?|_]; [lia|].
  rewrite (nth_lookup v (Z.to_nat i) d).
  destruct (lookup_lt_is_Some_2 v (Z.to_nat i)) as [a ->]; [lia|reflexivity].
Qed.

Lemma at_lookup {A : Type} (v : list A) (i : Z) (a : A) :
  0 <= i -> v !! Z.to_nat i = Some a -> at_ v i = Ret a.
Proof.
  intros Hi Hv. unfold at_.
  destruct (Z.ltb_spec i 0) as [?|_]; [lia|]. now rewrite Hv.
Qed.

Lemma store_in {A : Type} (v : list A) (i : Z) (a : A) :
  0 <= i < Z.of_nat (length v) -> store v i a = Ret (<[Z.to_nat i := a]> v).
Proof.
  intros Hi. unfold store.
  destruct (Z.leb_spec 0 i); [|lia].
  destruct (Z.ltb_spec i (Z.of_nat (length v))); [reflexivity|lia].
Qed.

Lemma store_out {A : Type} (v : list A) (i : Z) (a : A) :
  ~ 0 <= i < Z.of_nat (length v) -> store v i a = Fault.
Proof.
  intros Hi. unfold store.
  destruct (Z.leb_spec 0 i); [|reflexivity].
  destruct (Z.ltb_spec i (Z.of_nat (length v))); [lia|reflexivity].
Qed.

Lemma zero_loop_in (k0 n : Z) (f : list R) :
  0 <= k0 < Z.of_nat (length f) ->
  for_range n (fun _ f => store f k0 0%R) f
  = Ret (if n <=? 0 then f else <[Z.to_nat k0 := 0%R]> f).
Proof.
  intros Hk. destruct (Z.leb_spec n 0) as [Hn|Hn].
  - unfold for_range. now rewrite range_nonpos.
  - destruct (for_range_inv
      (fun i (s : list R) => s = if i <=? 0 then f else <[Z.to_nat k0 := 0%R]> f)
      (fun _ f => store f k0 0%R) n f) as (s' & Hrun & Hs'); [lia|reflexivity| |].
    + intros i s Hi ->. eexists. split.
      * apply store_in. destruct (i <=? 0); [|rewrite length_insert]; lia.
      * destruct (Z.leb_spec i 0), (Z.leb_spec (i + 1) 0); try lia;
          [reflexivity|apply list_insert_insert_eq].
    + rewrite Hrun, Hs'. destruct (Z.leb_spec n 0); [lia|reflexivity].
Qed.

Lemma zero_loop_out (k0 n : Z) (f : list R) :
  0 < n -> ~ 0 <= k0 < Z.of_nat (length f) ->
  for_range n (fun _ f => store f k0 0%R) f = Fault.
Proof.
  intros Hn Hk. unfold for_range, range.
  destruct (Z.to_nat n) as [|m] eqn:Hm; [lia|].
  simpl. now rewrite store_out.
Qed.

Lemma nth_map_range (g : Z -> R) (n k : Z) :
  0 <= k < n -> nth (Z.to_nat k) (map g (range n)) 0%R = g k.
Proof.
  intros Hk. rewrite (nth_lookup _ _ 0%R), list_lookup_fmap, lookup_range by lia.
  simpl. f_equal. lia.
Qed.

Lemma map_range_eq (g : Z -> R) (n : Z) (s : list R) :
  length s = Z.to_nat n ->
  (forall k : nat, (k < Z.to_nat n)%nat -> s !! k = Some (g (Z.of_nat k))) ->
  s = map g (range n).
Proof.
  intros Hlen Hs. apply list_eq. intros k.
  destruct (Nat.lt_ge_cases k (Z.to_nat n)) as [Hk|Hk].
  - rewrite Hs, list_lookup_fmap, lookup_range by lia. reflexivity.
  - rewrite !lookup_ge_None_2; [reflexivity| |lia].
    rewrite length_map, length_range. lia.
Qed.

Lemma store_loop_all (g : Z -> R) (n : Z) (f : list R) :
  Z.of_nat (length f) = n ->
  for_range n (fun k f => store f k (g k)) f = Ret (map g (range n)).
Proof.
  intros Hlen.
  destruct (for_range_inv
    (fun i (s : list R) => length s = length f /\
       forall k : nat, Z.of_nat k < i -> s !! k = Some (g (Z.of_nat k)))
    (fun k f => store f k (g k)) n f) as (s' & Hrun & Hl & Hs'); [lia| | |].
  - split; [reflexivity|]. intros k Hk. lia.
  - intros i s Hi [Hl Hs]. eexists. split; [apply store_in; lia|].
    split; [now rewrite length_insert|].
    intros k Hk. destruct (decide (k = Z.to_nat i)) as [->|Hne].
    + rewrite list_lookup_insert_eq by lia. do 2 f_equal. lia.
    + rewrite list_lookup_insert_ne by congruence. apply Hs. lia.
  - rewrite Hrun. f_equal. apply map_range_eq; [lia|].
    intros k Hk. apply Hs'. lia.
Qed.

(** Two successive [f[k] -= a k; f[k] -= b k] for every [k] below [n]. *)
Lemma sub_loop_all (a b : Z -> R) (n : Z) (f : list R) :
  Z.of_nat (length f) = n ->
  for_range n (fun k f => do f <- libdyn.sub_at f k (a k); libdyn.sub_at f k (b k)) f
  = Ret (map (fun k => nth (Z.to_nat k) f 0 - (a k + b k))%R (range n)).
Proof.
  intros Hlen.
  destruct (for_range_inv
    (fun i (s : list R) => length s = length f /\
       forall k : nat,
         s !! k = if Z.of_nat k <? i
                  then Some (nth k f 0 - (a (Z.of_nat k) + b (Z.of_nat k)))%R
                  else f !! k)
    (fun k f => do f <- libdyn.sub_at f k (a k); libdyn.sub_at f k (b k)) n f)
    as (s' & Hrun & Hl & Hs'); [lia| | |].
  - split; [reflexivity|]. intros k.
    destruct (Z.ltb_spec (Z.of_nat k) 0); [lia|reflexivity].
  - intros i s Hi [Hl Hs]. unfold libdyn.sub_at.
    rewrite (at_nth 0%R) by lia. cbn [bind].
    rewrite store_in by lia. cbn [bind].
    rewrite (at_nth 0%R) by (rewrite length_insert; lia). cbn [bind].
    rewrite store_in by (rewrite length_insert; lia).
    eexists. split; [reflexivity|]. split; [now rewrite !length_insert|].
    intros k. rewrite list_insert_insert_eq.
    destruct (decide (k = Z.to_nat i)) as [->|Hne].
    + rewrite list_lookup_insert_eq by lia.
      destruct (Z.ltb_spec (Z.of_nat (Z.to_nat i)) (i + 1)); [|lia].
      f_equal. rewrite (nth_lookup (<[_:=_]> s)), list_lookup_insert_eq by lia.
      simpl. rewrite (nth_lookup s), Hs.
      destruct (Z.ltb_spec (Z.of_nat (Z.to_nat i)) i); [lia|].
      rewrite <- (nth_lookup f), Z2Nat.id by lia. lra.
    + rewrite list_lookup_insert_ne by congruence. rewrite Hs.
      destruct (Z.ltb_spec (Z.of_nat k) i), (Z.ltb_spec (Z.of_nat k) (i + 1));
        try reflexivity; lia.
  - rewrite Hrun. f_equal. apply map_range_eq; [lia|].
    intros k Hk. rewrite Hs'.
    destruct (Z.ltb_spec (Z.of_nat k) n); [|lia].
    now rewrite Nat2Z.id.
Qed.

(** A loop whose every iteration subtracts [c i k] from each [f[k]]
    subtracts their sum. *)
Lemma for_each_sub_all (c : Z -> Z -> R) (body : Z -> list R -> outcome (list R))
    (n : Z) (l : list Z) (f : list R) :
  Z.of_nat (length f) = n ->
  (forall i f, In i l -> Z.of_nat (length f) = n ->
     body i f = Ret (map (fun k => nth (Z.to_nat k) f 0 - c i k)%R (range n))) ->
  for_each body l f
  = Ret (map (fun k => nth (Z.to_nat k) f 0 - Rsum (fun i => c i k) l)%R (range n)).
Proof.
  revert f. induction l as [|i l IH]; intros f Hlen Hbody; simpl.
  - f_equal. apply map_range_eq; [lia|]. intros k Hk.
    rewrite Nat2Z.id, (nth_lookup f k 0%R).
    destruct (lookup_lt_is_Some_2 f k) as [a ->]; [lia|]. simpl. f_equal. lra.
  - rewrite Hbody by (auto; left; reflexivity). simpl.
    rewrite IH.
    + f_equal. apply map_ext_in. intros k Hk. apply in_range in Hk.
      rewrite nth_map_range by lia. lra.
    + rewrite length_map, length_range. lia.
    + intros j f' Hj Hf'. apply Hbody; [right; exact Hj|exact Hf'].
Qed.
(** ** Matrices *)

Lemma entries_succ (r c : Z) (g : Z -> Z -> R) :
  0 <= r -> entries (r + 1) c g = entries r c g ++ map (g r) (range c).
Proof.
  intros Hr. unfold entries. rewrite range_succ by exact Hr.
  rewrite flat_map_app. simpl. now rewrite app_nil_r.
Qed.

Lemma length_entries (r c : Z) (g : Z -> Z -> R) :
  0 <= r -> 0 <= c -> length (entries r c g) = Z.to_nat (r * c).
Proof.
  intros Hr Hc. pattern r. apply natlike_ind; [reflexivity| |exact Hr].
  intros k Hk IH. change (Z.succ k) with (k + 1).
  rewrite entries_succ, length_app, IH, length_map, length_range by exact Hk.
  nia.
Qed.

Lemma nth_entries (r c : Z) (g : Z -> Z -> R) (i j : Z) :
  0 <= i < r -> 0 <= j < c ->
  nth (Z.to_nat (i * c + j)) (entries r c g) 0%R = g i j.
Proof.
  intros Hi Hj. assert (Hr : 0 <= r) by lia. revert Hi. pattern r.
  apply natlike_ind; [lia| |exact Hr].
  intros k Hk IH Hi. change (Z.succ k) with (k + 1).
  rewrite entries_succ by exact Hk.
  destruct (Z.eq_dec i k) as [->|Hne].
  - rewrite app_nth2; rewrite length_entries by lia; [|nia].
    replace (Z.to_nat (k * c + j) - Z.to_nat (k * c))%nat with (Z.to_nat j) by nia.
    apply nth_map_range. exact Hj.
  - rewrite app_nth1; [apply IH; lia|].
    rewrite length_entries by lia. nia.
Qed.

(** [S] of [compute_adiabatic] is the identity matrix. *)
Lemma get_unit_matrix (n i j : Z) :
  0 <= i < n -> 0 <= j < n ->
  get (Init_Unit_Matrix 1 (MATRIX_zero n n)) i j = if i =? j then 1%R else 0%R.
Proof.
  intros Hi Hj. unfold get, Init_Unit_Matrix, MATRIX_zero. simpl.
  now rewrite nth_entries.
Qed.

Lemma get_mmul (a b : MATRIX) (i j : Z) :
  0 <= i < num_of_rows a -> 0 <= j < num_of_cols b ->
  get (mmul a b) i j
  = Rsum (fun k => (get a i k * get b k j)%R) (range (num_of_cols a)).
Proof.
  intros Hi Hj. unfold get at 1, mmul. simpl. now rewrite nth_entries.
Qed.

Lemma get_T (m : MATRIX) (i j : Z) :
  0 <= i < num_of_cols m -> 0 <= j < num_of_rows m ->
  get (T m) i j = get m j i.
Proof.
  intros Hi Hj. unfold get at 1, T. simpl. now rewrite nth_entries.
Qed.

Lemma Rsum_app (g : Z -> R) (l1 l2 : list Z) :
  Rsum g (l1 ++ l2) = (Rsum g l1 + Rsum g l2)%R.
Proof. induction l1 as [|i l1 IH]; simpl; [lra|rewrite IH; lra]. Qed.

Lemma Rsum_ext_in (g g' : Z -> R) (l : list Z) :
  (forall k, In k l -> g k = g' k) -> Rsum g l = Rsum g' l.
Proof.
  induction l as [|i l IH]; intros Hg; simpl; [reflexivity|].
  rewrite Hg by (left; reflexivity). rewrite IH; [reflexivity|].
  intros k Hk. apply Hg. right. exact Hk.
Qed.

(** A sum against the row [i] of the unit matrix picks the term [i]. *)
Lemma Rsum_delta (g : Z -> R) (n i : Z) :
  0 <= i -> 0 <= n ->
  Rsum (fun k => (if i =? k then 1 else 0) * g k)%R (range n)
  = if i <? n then g i else 0%R.
Proof.
  intros Hi Hn. pattern n. apply natlike_ind; [| |exact Hn].
  - destruct (Z.ltb_spec i 0); [lia|reflexivity].
  - intros m Hm IH. change (Z.succ m) with (m + 1).
    rewrite range_succ, Rsum_app, IH by exact Hm. simpl.
    destruct (Z.ltb_spec i m), (Z.ltb_spec i (m + 1)), (Z.eqb_spec i m);
      try lia; subst; lra.
Qed.

Lemma entries_ext (r c : Z) (g g' : Z -> Z -> R) :
  0 <= r ->
  (forall i j, 0 <= i < r -> 0 <= j < c -> g i j = g' i j) ->
  entries r c g = entries r c g'.
Proof.
  intros Hr. pattern r. apply natlike_ind; [reflexivity| |exact Hr].
  intros m Hm IH Hg. change (Z.succ m) with (m + 1) in *.
  rewrite !entries_succ by exact Hm. f_equal.
  - apply IH. intros i j Hi Hj. apply Hg; lia.
  - apply map_ext_in. intros j Hj. apply in_range in Hj. apply Hg; lia.
Qed.

Lemma entries_get (n : Z) (m : list R) :
  0 <= n -> length m = Z.to_nat (n * n) ->
  entries n n (get (mkMATRIX n n m)) = m.
Proof.
  intros Hn Hlen. apply (nth_ext _ _ 0%R 0%R).
  - rewrite length_entries by lia. now rewrite Hlen.
  - intros k Hk. rewrite length_entries in Hk by lia.
    assert (Hn' : 0 < n) by nia.
    pose proof (Z.div_mod (Z.of_nat k) n ltac:(lia)) as Hdm.
    pose proof (Z.mod_pos_bound (Z.of_nat k) n Hn') as Hmod.
    assert (Hdiv : 0 <= Z.of_nat k / n < n).
    { split; [apply Z.div_pos; lia|apply Z.div_lt_upper_bound; nia]. }
    replace k with (Z.to_nat (Z.of_nat k / n * n + Z.of_nat k mod n)) at 1 by lia.
    rewrite nth_entries by lia. unfold get. simpl. f_equal. lia.
Qed.

(** The matrix [S] of [compute_adiabatic] is a left unit of the product. *)
Lemma mmul_unit_l (n : Z) (a : MATRIX) :
  0 <= n ->
  num_of_rows a = n -> num_of_cols a = n -> length (M a) = Z.to_nat (n * n) ->
  mmul (Init_Unit_Matrix 1 (MATRIX_zero n n)) a = a.
Proof.
  intros Hn Hr Hc Hlen. destruct a as [r c m]. simpl in *. subst r c.
  unfold mmul. simpl. f_equal.
  transitivity (entries n n (get (mkMATRIX n n m)));
    [|apply entries_get; assumption].
  apply entries_ext; [exact Hn|]. intros i j Hi Hj.
  rewrite (Rsum_ext_in _ (fun k => (if i =? k then 1 else 0)
                                   * get (mkMATRIX n n m) k j)%R).
  - rewrite Rsum_delta by lia. destruct (Z.ltb_spec i n); [reflexivity|lia].
  - intros k Hk. apply in_range in Hk. now rewrite get_unit_matrix.
Qed.

(** ** Energies and forces (libdyn) *)

Section Energy_and_Forces_properties.

Import libdyn spec.

Context {Ham : Type} `{Hamiltonian Ham}.

Lemma Heff_loop_sum (el : Electronic) (ham : Ham) :
  el_nstates el <= Z.of_nat (length (el_q el)) ->
  el_nstates el <= Z.of_nat (length (el_p el)) ->
  Heff_loop el ham = Ret (Epot_MF el ham / 2)%R.
Proof.
  intros Hq Hp. unfold Heff_loop, for_range, Epot_MF.
  rewrite (for_each_accumulate (fun i => Rsum (fun j =>
     0.5 * real (Hvib ham i j) * (q_ el i * q_ el j + p_ el i * p_ el j)
     + imag (Hvib ham i j) * p_ el i * q_ el j) (range (el_nstates el)))%R).
  - f_equal. lra.
  - intros i a Hi. apply in_range in Hi.
    apply for_each_accumulate. intros j b Hj. apply in_range in Hj.
    unfold q_, p_.
    rewrite !(at_nth 0%R (el_q el)), !(at_nth 0%R (el_p el)) by lia.
    simpl. f_equal. lra.
Qed.

(** C2.  In mean-field mode ([opt = 0]) [compute_potential_energy] returns
    2 * Sum_{i,j} [0.5*Re(Hvib(i,j))*(q_i*q_j + p_i*p_j) + Im(Hvib(i,j))*p_i*q_j],
    the sum over all pairs of states below [nstates], whenever the
    Hamiltonian accepts the coordinates and the amplitude vectors hold
    [nstates] entries. *)
Theorem compute_potential_energy_mean_field
    (mol : Nuclear) (el : Electronic) (ham ham1 ham2 : Ham) :
  el_nstates el <= Z.of_nat (length (el_q el)) ->
  el_nstates el <= Z.of_nat (length (el_p el)) ->
  set_q (mol_q mol) ham = Ret ham1 ->
  compute ham1 = Ret ham2 ->
  compute_potential_energy mol el ham 0 = Ret (Epot_MF el ham2, ham2).
Proof.
  intros Hq Hp Hset Hcomp. unfold compute_potential_energy.
  rewrite Hset. simpl. rewrite Hcomp. simpl.
  rewrite Heff_loop_sum by assumption. simpl. do 2 f_equal. lra.
Qed.



Lemma MF_force_loop_sub (nnucl : Z) (el : Electronic) (ham : Ham) (f : list R) :
  Z.of_nat (length f) = nnucl ->
  el_nstates el <= Z.of_nat (length (el_q el)) ->
  el_nstates el <= Z.of_nat (length (el_p el)) ->
  MF_force_loop nnucl el ham f
  = Ret (map (fun k => nth (Z.to_nat k) f 0 - dEdq_MF el ham k)%R (range nnucl)).
Proof.
  intros Hf Hq Hp. unfold MF_force_loop, for_range.
  rewrite (for_each_sub_all (fun i k => Rsum (fun j =>
     2 * 0.5 * real (dHdq ham i j k) * (q_ el i * q_ el j + p_ el i * p_ el j)
     + 2 * imag (dHdq ham i j k) * p_ el i * q_ el j) (range (el_nstates el)))%R
     _ nnucl); [reflexivity|exact Hf|].
  intros i f1 Hi Hf1. apply in_range in Hi.
  apply for_each_sub_all; [exact Hf1|].
  intros j f2 Hj Hf2. apply in_range in Hj.
  rewrite !(at_nth 0%R (el_q el)), !(at_nth 0%R (el_p el)) by lia. cbn [bind].
  fold (q_ el i) (q_ el j) (p_ el i) (p_ el j).
  change (for_each ?b (range nnucl) f2) with (for_range nnucl b f2).
  rewrite sub_loop_all by exact Hf2.
  f_equal. apply map_ext. intros k. do 2 f_equal. symmetry. apply Rmult_assoc.
Qed.

(** What [compute_forces] does in mean-field mode when the store of line 77
    lands inside [f]: the entry [k0] is cleared, the others keep the value
    they had, and the gradient is subtracted from all of them. *)
Lemma compute_forces_mean_field_run
    (k0 : Z) (mol : Nuclear) (el : Electronic) (ham ham1 ham2 : Ham) :
  set_q (mol_q mol) ham = Ret ham1 ->
  compute ham1 = Ret ham2 ->
  Z.of_nat (length (mol_f mol)) = mol_nnucl mol ->
  el_nstates el <= Z.of_nat (length (el_q el)) ->
  el_nstates el <= Z.of_nat (length (el_p el)) ->
  0 <= k0 < mol_nnucl mol ->
  compute_forces k0 mol el ham 0
  = Ret (with_f (map (fun k =>
           nth (Z.to_nat k) (<[Z.to_nat k0 := 0%R]> (mol_f mol)) 0
           - dEdq_MF el ham2 k)%R (range (mol_nnucl mol))) mol, ham2).
Proof.
  intros Hset Hcomp Hf Hq Hp Hk. unfold compute_forces.
  rewrite Hset. cbn [bind]. rewrite Hcomp. cbn [bind].
  rewrite zero_loop_in by lia. cbn [bind].
  destruct (Z.leb_spec (mol_nnucl mol) 0); [lia|].
  change (0 =? 0) with true. cbv iota.
  rewrite MF_force_loop_sub; [reflexivity| |assumption|assumption].
  rewrite length_insert. exact Hf.
Qed.

(** When the store of line 77 lands outside [f] the call has no result. *)
Lemma compute_forces_stray_fault
    (k0 : Z) (mol : Nuclear) (el : Electronic) (ham ham1 ham2 : Ham) (opt : Z) :
  set_q (mol_q mol) ham = Ret ham1 ->
  compute ham1 = Ret ham2 ->
  0 < mol_nnucl mol ->
  ~ 0 <= k0 < Z.of_nat (length (mol_f mol)) ->
  compute_forces k0 mol el ham opt = Fault.
Proof.
  intros Hset Hcomp Hn Hk. unfold compute_forces.
  rewrite Hset. cbn [bind]. rewrite Hcomp. cbn [bind].
  now rewrite zero_loop_out.
Qed.

(** The single-surface branch ([opt = 1]) of [compute_forces], case by case
    on the store of line 77: when it lands inside [f] (or is not run, when
    there is no degree of freedom) the call leaves
    [f[k] = -Re(dHdq(istate,istate,k))] for every [k]; for any other value
    of [k] at line 77 the call has no result at all.  The amplitudes are not
    read: two electronic objects with the same active state give the same
    result. *)
Theorem compute_forces_single_surface
    (k0 : Z) (mol : Nuclear) (el : Electronic) (ham ham1 ham2 : Ham) :
  set_q (mol_q mol) ham = Ret ham1 ->
  compute ham1 = Ret ham2 ->
  Z.of_nat (length (mol_f mol)) = mol_nnucl mol ->
  let done := Ret (with_f (forces_FSSH (mol_nnucl mol) el ham2) mol, ham2) in
  (mol_nnucl mol = 0 \/ 0 <= k0 < mol_nnucl mol ->
     compute_forces k0 mol el ham 1 = done)
  /\ (compute_forces k0 mol el ham 1 = done
      \/ compute_forces k0 mol el ham 1 = Fault)
  /\ (forall el', el_istate el' = el_istate el ->
       compute_forces k0 mol el' ham 1 = compute_forces k0 mol el ham 1).
Proof.
  intros Hset Hcomp Hf done.
  assert (Hin : mol_nnucl mol = 0 \/ 0 <= k0 < mol_nnucl mol ->
                compute_forces k0 mol el ham 1 = done).
  { intros Hk. unfold compute_forces.
    rewrite Hset. cbn [bind]. rewrite Hcomp. cbn [bind].
    assert (Hzero : exists f0, length f0 = length (mol_f mol) /\
              for_range (mol_nnucl mol) (fun _ f => store f k0 0%R) (mol_f mol)
              = Ret f0).
    { destruct Hk as [Hn|Hk].
      - exists (mol_f mol). split; [reflexivity|].
        unfold for_range. now rewrite range_nonpos by lia.
      - eexists. split; [|apply zero_loop_in; lia].
        destruct (mol_nnucl mol <=? 0); [|rewrite length_insert]; reflexivity. }
    destruct Hzero as (f0 & Hlen & ->). cbn [bind].
    change (1 =? 0) with false. change (1 =? 1) with true. cbv iota.
    unfold FSSH_force_loop. rewrite store_loop_all by lia. reflexivity. }
  split; [exact Hin|split].
  - destruct (Z.eq_dec (mol_nnucl mol) 0) as [Hn|Hn]; [left; auto|].
    destruct (Z_lt_le_dec k0 0) as [Hk|Hk];
      [|destruct (Z_lt_le_dec k0 (mol_nnucl mol)) as [Hk'|Hk']].
    + right. eapply compute_forces_stray_fault; eauto; lia.
    + left. apply Hin. right. lia.
    + right. eapply compute_forces_stray_fault; eauto; lia.
  - intros el' Hel. unfold compute_forces, FSSH_force_loop.
    change (1 =? 0) with false. change (1 =? 1) with true. cbv iota.
    rewrite Hel. reflexivity.
Qed.

End Energy_and_Forces_properties.

Section Energy_and_Forces_runs.

Import libdyn spec models.

Open Scope R_scope.

(** C1.  A run of the mean-field forces on two degrees of freedom and one
    state, from the forces [5; 7].  The specification asks for
    [f = -dE/dq = [-1; -2]].  The loop of line 77 stores [0.0] at [f[k]]
    instead of [f[i]], so at most one entry is cleared: the call returns
    [-1; 5] if [k] holds 0, [4; -2] if it holds 1, and has no result
    otherwise. *)
Theorem compute_forces_mean_field_stale (k0 : Z) :
  forces_MF 2 el1 (mk_table_ham [0; 0]) = [-1; -2]
  /\ compute_forces k0 mol2 el1 (mk_table_ham []) 0
     = if (k0 =? 0)%Z then Ret (with_f [-1; 5] mol2, mk_table_ham [0; 0])
       else if (k0 =? 1)%Z then Ret (with_f [4; -2] mol2, mk_table_ham [0; 0])
       else Fault.
Proof.
  assert (Hd0 : dEdq_MF el1 (mk_table_ham [0; 0]) 0 = 1).
  { vm_compute. lra. }
  assert (Hd1 : dEdq_MF el1 (mk_table_ham [0; 0]) 1 = 2).
  { vm_compute. lra. }
  split.
  - unfold forces_MF.
    remember (dEdq_MF el1 (mk_table_ham [0; 0])) as d.
    simpl. change (Z.of_nat 0) with 0%Z. change (Z.of_nat 1) with 1%Z.
    rewrite Hd0, Hd1. reflexivity.
  - destruct (Z.eqb_spec k0 0) as [->|H0]; [|destruct (Z.eqb_spec k0 1) as [->|H1]].
    + erewrite compute_forces_mean_field_run;
        [|reflexivity|reflexivity|reflexivity|simpl; lia|simpl; lia|simpl; lia].
      simpl. change (Z.of_nat 0) with 0%Z. change (Z.of_nat 1) with 1%Z.
      rewrite Hd0, Hd1. unfold with_f. simpl. repeat f_equal; lra.
    + erewrite compute_forces_mean_field_run;
        [|reflexivity|reflexivity|reflexivity|simpl; lia|simpl; lia|simpl; lia].
      simpl. change (Z.of_nat 0) with 0%Z. change (Z.of_nat 1) with 1%Z.
      rewrite Hd0, Hd1. unfold with_f. simpl. repeat f_equal; lra.
    + eapply compute_forces_stray_fault;
        [reflexivity|reflexivity|simpl; lia|simpl; lia].
Qed.

End Energy_and_Forces_runs.

(** ** The atomistic Hamiltonian *)

Section Hamiltonian_Atomistic_properties.

Import libhamiltonian_atomistic spec.

Context `{MM_services}.

Lemma size_t_of_int (n : Z) : 0 <= n <= INT_MAX -> n mod 2 ^ 64 = n.
Proof. intros Hn. apply Z.mod_small. unfold INT_MAX in Hn. lia. Qed.

(** C5.  [set_q] ends the process exactly when the size of the input differs
    from [nnucl]; when the sizes agree (and a system is attached) it stores
    the coordinates and marks both the diabatic and the adiabatic results as
    stale. *)
Theorem set_q_size_check (q_ : list R) (h : Hamiltonian_Atomistic) :
  0 <= nnucl h <= INT_MAX ->
  (set_q q_ h = Exit 0 <-> Z.of_nat (length q_) <> nnucl h)
  /\ (Z.of_nat (length q_) = nnucl h ->
      forall syst, _syst h = Some syst ->
      exists h', set_q q_ h = Ret h'
        /\ q h' = q_ /\ status_dia h' = 0 /\ status_adi h' = 0).
Proof.
  intros Hn. unfold set_q. rewrite size_t_of_int by exact Hn.
  destruct (Z.eqb_spec (Z.of_nat (length q_)) (nnucl h)) as [Heq|Hne]; simpl.
  - split.
    + split; [|contradiction].
      destruct (_syst h); simpl; discriminate.
    + intros _ syst ->. eexists. split; [reflexivity|]. simpl. auto.
  - split.
    + split; [intros _; exact Hne|reflexivity].
    + contradiction.
Qed.

(** C9.  [set_v] ends the process exactly when the size of the input differs
    from [nnucl]; when the sizes agree (and a system is attached) it stores
    the velocities and marks only the adiabatic result as stale: the
    diabatic flag and the diabatic matrices are the ones of the call. *)
Theorem set_v_size_check (v_ : list R) (h : Hamiltonian_Atomistic) :
  0 <= nnucl h <= INT_MAX ->
  (set_v v_ h = Exit 0 <-> Z.of_nat (length v_) <> nnucl h)
  /\ (Z.of_nat (length v_) = nnucl h ->
      forall syst, _syst h = Some syst ->
      exists h', set_v v_ h = Ret h'
        /\ v h' = v_ /\ status_adi h' = 0
        /\ status_dia h' = status_dia h
        /\ ham_dia h' = ham_dia h
        /\ d1ham_dia h' = d1ham_dia h
        /\ d2ham_dia h' = d2ham_dia h).
Proof.
  intros Hn. unfold set_v. rewrite size_t_of_int by exact Hn.
  destruct (Z.eqb_spec (Z.of_nat (length v_)) (nnucl h)) as [Heq|Hne]; simpl.
  - split.
    + split; [|contradiction].
      destruct (_syst h); simpl; discriminate.
    + intros _ syst ->. eexists. split; [reflexivity|]. simpl. auto 10.
  - split.
    + split; [intros _; exact Hne|reflexivity].
    + contradiction.
Qed.

Lemma set_Hamiltonian_type_MM (h : Hamiltonian_Atomistic) (t0 : Z) :
  ham_types h !! 0%nat = Some t0 ->
  set_Hamiltonian_type "MM" h
  = Ret (if t0 =? 0
         then with_ham_types (<[0%nat := 1]> (ham_types h))
                (with_mm_allocs (S (mm_allocs h))
                   (with_mm_ham (Some (mklistHamiltonian_MM [])) (with_rep 0 h)))
         else with_rep 0 h).
Proof.
  intros Ht. unfold set_Hamiltonian_type. simpl.
  rewrite (at_lookup _ 0 t0) by (try lia; exact Ht). cbn [bind].
  destruct (t0 =? 0); [|reflexivity].
  rewrite store_in; [reflexivity|].
  simpl. apply lookup_lt_Some in Ht. lia.
Qed.

Lemma set_Hamiltonian_type_times_set (n : nat) (h : Hamiltonian_Atomistic) (t0 : Z) :
  ham_types h !! 0%nat = Some t0 -> t0 <> 0 ->
  exists h', set_Hamiltonian_type_times n "MM" h = Ret h'
    /\ mm_allocs h' = mm_allocs h /\ mm_ham h' = mm_ham h.
Proof.
  revert h. induction n as [|n IH]; intros h Ht Hne; simpl.
  - exists h. auto.
  - rewrite (set_Hamiltonian_type_MM h t0 Ht).
    destruct (Z.eqb_spec t0 0); [contradiction|]. cbn [bind].
    destruct (IH (with_rep 0 h)) as (h' & Hrun & Ha & Hm); [exact Ht|exact Hne|].
    exists h'. auto.
Qed.

(** C8.  [set_Hamiltonian_type] ends the process at the call for every
    selector other than "MM".  For "MM" it returns with [rep = 0], and the
    MM Hamiltonian is allocated only when the flag [ham_types[0]] is 0: any
    number of successive calls allocates it at most once. *)
Theorem set_Hamiltonian_type_selector
    (ham_type : string) (n : nat) (h : Hamiltonian_Atomistic) :
  (ham_type <> "MM"%string -> set_Hamiltonian_type ham_type h = Exit 0)
  /\ (forall t0, ham_types h !! 0%nat = Some t0 ->
      (exists h', set_Hamiltonian_type "MM" h = Ret h'
         /\ rep h' = 0
         /\ mm_allocs h' = (if t0 =? 0 then S (mm_allocs h) else mm_allocs h)
         /\ ham_types h' !! 0%nat = Some (if t0 =? 0 then 1 else t0))
      /\ (exists h', set_Hamiltonian_type_times n "MM" h = Ret h'
         /\ (mm_allocs h' <= S (mm_allocs h))%nat)).
Proof.
  split; [|intros t0 Ht; split].
  - intros Hne. unfold set_Hamiltonian_type.
    destruct (String.eqb_spec ham_type "MM"); [contradiction|reflexivity].
  - rewrite (set_Hamiltonian_type_MM h t0 Ht). eexists. split; [reflexivity|].
    destruct (t0 =? 0); simpl; repeat split; try assumption.
    apply list_lookup_insert_eq. apply lookup_lt_Some in Ht. exact Ht.
  - destruct n as [|n]; simpl.
    + exists h. split; [reflexivity|lia].
    + rewrite (set_Hamiltonian_type_MM h t0 Ht). cbn [bind].
      destruct (Z.eqb_spec t0 0) as [->|Hne].
      * match goal with
        | |- context [set_Hamiltonian_type_times n _ ?h1] =>
            destruct (set_Hamiltonian_type_times_set n h1 1)
              as (h' & Hrun & Ha & _)
        end.
        -- simpl. apply list_lookup_insert_eq. apply lookup_lt_Some in Ht. exact Ht.
        -- lia.
        -- exists h'. split; [exact Hrun|]. rewrite Ha. simpl. lia.
      * destruct (set_Hamiltonian_type_times_set n (with_rep 0 h) t0)
          as (h' & Hrun & Ha & _); [exact Ht|exact Hne|].
        exists h'. split; [exact Hrun|]. rewrite Ha. simpl. lia.
Qed.

(** C4.  A second [compute_diabatic] with no [set_q] in between does
    nothing: it returns the object of the first call as it is, with every
    matrix, the interactions, the system and the count of the calls of
    [calculate] unchanged.  The same holds for any call that finds the
    diabatic flag set. *)
Theorem compute_diabatic_idempotent (h h1 : Hamiltonian_Atomistic) :
  compute_diabatic h = Ret h1 ->
  compute_diabatic h1 = Ret h1
  /\ (status_dia h <> 0 -> h1 = h).
Proof.
  unfold compute_diabatic at 1.
  destruct (Z.eqb_spec (status_dia h) 0) as [Hz|Hnz].
  - destruct (at_ (ham_types h) 0) as [t0| |]; cbn [bind]; try discriminate.
    destruct (if t0 =? 1 then compute_MM h else Ret h) as [h'| |];
      cbn [bind]; try discriminate.
    intros [= <-]. split; [reflexivity|contradiction].
  - intros [= <-]. split; [|reflexivity].
    unfold compute_diabatic. destruct (Z.eqb_spec (status_dia h) 0);
      [contradiction|reflexivity].
Qed.


(** *** Writing the first entry of the matrices *)

Lemma square_nonempty (n : Z) (m : MATRIX) : 1 <= n -> square n m -> nonempty m.
Proof. intros Hn (_ & _ & Hlen). unfold nonempty. rewrite Hlen. nia. Qed.

Lemma set_M0_ok (a : R) (m : MATRIX) : nonempty m -> set_M0 a m = Ret (put0 a m).
Proof.
  intros Hm. unfold set_M0. rewrite store_in by (unfold nonempty in Hm; lia).
  reflexivity.
Qed.


Lemma put0_square (n : Z) (a : R) (m : MATRIX) : square n m -> square n (put0 a m).
Proof.
  intros (Hr & Hc & Hl). unfold square, put0. simpl.
  now rewrite length_insert.
Qed.

Lemma set_M0_at_ok (v : list MATRIX) (i : Z) (a : R) (m : MATRIX) :
  0 <= i -> v !! Z.to_nat i = Some m -> nonempty m ->
  set_M0_at v i a = Ret (<[Z.to_nat i := put0 a m]> v).
Proof.
  intros Hi Hv Hm. unfold set_M0_at.
  rewrite (at_lookup v i m Hi Hv). cbn [bind].
  rewrite set_M0_ok by exact Hm. cbn [bind].
  apply store_in. apply lookup_lt_Some in Hv. lia.
Qed.

Lemma written_refl (g : Z -> R) (b : Z) (v : list MATRIX) :
  b <= 0 -> written g b v v.
Proof.
  intros Hb. split; [reflexivity|]. intros k.
  destruct (Z.ltb_spec (Z.of_nat k) b); [lia|reflexivity].
Qed.

Lemma set_M0_at_written (g : Z -> R) (b : Z) (a : R) (v' v : list MATRIX) :
  written g b v' v ->
  0 <= b < Z.of_nat (length v) ->
  Forall nonempty v ->
  a = g b ->
  exists v'', set_M0_at v' b a = Ret v'' /\ written g (b + 1) v'' v.
Proof.
  intros [Hlen Hv'] Hb Hne ->.
  destruct (lookup_lt_is_Some_2 v (Z.to_nat b)) as [m Hm]; [lia|].
  assert (Hm' : v' !! Z.to_nat b = Some m).
  { rewrite Hv'. destruct (Z.ltb_spec (Z.of_nat (Z.to_nat b)) b); [lia|exact Hm]. }
  assert (Hmne : nonempty m).
  { rewrite Forall_forall in Hne. apply Hne. eapply list_elem_of_lookup_2, Hm. }
  eexists. split; [apply set_M0_at_ok; [lia|exact Hm'|exact Hmne]|].
  split; [now rewrite length_insert|].
  intros k. destruct (decide (k = Z.to_nat b)) as [->|Hk].
  - rewrite list_lookup_insert_eq by (rewrite Hlen; lia).
    destruct (Z.ltb_spec (Z.of_nat (Z.to_nat b)) (b + 1)); [|lia].
    rewrite Hm. simpl. do 2 f_equal. f_equal. lia.
  - rewrite list_lookup_insert_ne by congruence. rewrite Hv'.
    destruct (Z.ltb_spec (Z.of_nat k) b), (Z.ltb_spec (Z.of_nat k) (b + 1));
      try reflexivity; lia.
Qed.

Lemma force_component_3 (syst : System) (i : Z) :
  force_component syst (3 * i) = x (rb_force syst i)
  /\ force_component syst (3 * i + 1) = y (rb_force syst i)
  /\ force_component syst (3 * i + 2) = z (rb_force syst i).
Proof.
  unfold force_component.
  replace (3 * i / 3) with i by (Z.div_mod_to_equations; lia).
  replace ((3 * i + 1) / 3) with i by (Z.div_mod_to_equations; lia).
  replace ((3 * i + 2) / 3) with i by (Z.div_mod_to_equations; lia).
  replace (3 * i mod 3) with 0 by (Z.div_mod_to_equations; lia).
  replace ((3 * i + 1) mod 3) with 1 by (Z.div_mod_to_equations; lia).
  replace ((3 * i + 2) mod 3) with 2 by (Z.div_mod_to_equations; lia).
  simpl. auto.
Qed.

Lemma set_force_at_written (syst : System) (i : Z) (v' v : list MATRIX) :
  written (fun n => - force_component syst n)%R (3 * i) v' v ->
  0 <= i -> 3 * i + 2 < Z.of_nat (length v) ->
  Forall nonempty v ->
  exists v'', set_force_at v' i (rb_force syst i) = Ret v''
    /\ written (fun n => - force_component syst n)%R (3 * (i + 1)) v'' v.
Proof.
  intros Hw Hi Hlen Hne. unfold set_force_at.
  destruct (force_component_3 syst i) as (Hx & Hy & Hz).
  destruct (set_M0_at_written _ (3 * i) (- x (rb_force syst i))%R _ _ Hw)
    as (v1 & -> & Hw1); [lia|exact Hne|now rewrite Hx|]. cbn [bind].
  destruct (set_M0_at_written _ (3 * i + 1) (- y (rb_force syst i))%R _ _ Hw1)
    as (v2 & -> & Hw2); [lia|exact Hne|now rewrite Hy|]. cbn [bind].
  destruct (set_M0_at_written _ (3 * i + 1 + 1) (- z (rb_force syst i))%R _ _ Hw2)
    as (v3 & Hrun & Hw3); [lia|exact Hne| |].
  { replace (3 * i + 1 + 1) with (3 * i + 2) by lia. now rewrite Hz. }
  exists v3. replace (3 * i + 2) with (3 * i + 1 + 1) by lia.
  split; [exact Hrun|].
  replace (3 * (i + 1)) with (3 * i + 1 + 1 + 1) by lia. exact Hw3.
Qed.

Lemma d1_loop_written (syst : System) (dia adi : list MATRIX) :
  0 <= Number_of_atoms syst ->
  3 * Number_of_atoms syst <= Z.of_nat (length dia) ->
  3 * Number_of_atoms syst <= Z.of_nat (length adi) ->
  Forall nonempty dia -> Forall nonempty adi ->
  exists dia' adi', d1_loop syst (dia, adi) = Ret (dia', adi')
    /\ written (fun n => - force_component syst n)%R
         (3 * Number_of_atoms syst) dia' dia
    /\ written (fun n => - force_component syst n)%R
         (3 * Number_of_atoms syst) adi' adi.
Proof.
  intros HN Hdia Hadi Hne1 Hne2. unfold d1_loop.
  destruct (for_range_inv
    (fun i (d : list MATRIX * list MATRIX) =>
       written (fun n => - force_component syst n)%R (3 * i) (fst d) dia
       /\ written (fun n => - force_component syst n)%R (3 * i) (snd d) adi)
    (fun i '(dia, adi) =>
       let F := rb_force syst i in
       do dia <- set_force_at dia i F;
       do adi <- set_force_at adi i F;
       Ret (dia, adi))
    (Number_of_atoms syst) (dia, adi)) as ([dia' adi'] & Hrun & Hw1 & Hw2);
    [exact HN| | |].
  - split; apply written_refl; lia.
  - intros i [d a] Hi [Hw1 Hw2]. simpl in Hw1, Hw2. cbv zeta.
    destruct (set_force_at_written syst i d dia Hw1) as (d' & -> & Hd');
      [lia|lia|exact Hne1|]. cbn [bind].
    destruct (set_force_at_written syst i a adi Hw2) as (a' & -> & Ha');
      [lia|lia|exact Hne2|]. cbn [bind].
    exists (d', a'). auto.
  - exists dia', adi'. auto.
Qed.

Lemma d2_loop_written (n2 : Z) (d2 : list MATRIX) :
  0 <= n2 <= Z.of_nat (length d2) ->
  Forall nonempty d2 ->
  exists d2', d2_loop n2 d2 = Ret d2' /\ written (fun _ => 0%R) n2 d2' d2.
Proof.
  intros Hn Hne. unfold d2_loop.
  apply (for_range_inv (fun i d => written (fun _ => 0%R) i d d2));
    [lia|apply written_refl; lia|].
  intros i d Hi Hw. eapply set_M0_at_written; eauto. lia.
Qed.

(** The loop over the interactions runs to its end and calls [calculate]
    once for each of them. *)
Lemma calculate_loop_total (its : list Interaction) (syst : System) (calls : nat) :
  exists res its' syst',
    calculate_loop its syst calls
    = Ret (res, its', syst', (calls + length its)%nat).
Proof.
  unfold calculate_loop.
  destruct (for_range_inv
    (fun i (s : R * list Interaction * System * nat) =>
       length (snd (fst (fst s))) = length its
       /\ snd s = (calls + Z.to_nat i)%nat)
    (fun i '(res, its, syst, calls) =>
       do it <- at_ its i;
       let '(e, (it', syst')) := calculate it syst in
       do its' <- store its i it';
       Ret ((res + e)%R, its', syst', S calls))
    (Z.of_nat (length its)) (0%R, its, syst, calls))
    as ([[[res its'] syst'] calls'] & Hrun & Hlen & Hcalls); [lia| | |].
  - simpl. split; [reflexivity|lia].
  - intros i [[[r l] s] c] Hi [Hl Hc]. simpl in Hl, Hc.
    destruct (lookup_lt_is_Some_2 l (Z.to_nat i)) as [it Hit]; [lia|].
    rewrite (at_lookup l i it) by (try lia; exact Hit). cbn [bind].
    destruct (calculate it s) as [e [it' s']].
    rewrite store_in by lia. cbn [bind].
    eexists. split; [reflexivity|]. simpl.
    split; [now rewrite length_insert|lia].
  - simpl in Hcalls. exists res, its', syst'. rewrite Hrun.
    do 2 f_equal. lia.
Qed.

Lemma wf_nonempty (h : Hamiltonian_Atomistic) :
  wf h -> 1 <= nelec h ->
  nonempty (ham_dia h) /\ nonempty (ham_adi h)
  /\ Forall nonempty (d1ham_dia h) /\ Forall nonempty (d1ham_adi h)
  /\ Forall nonempty (d2ham_dia h).
Proof.
  intros Hwf Hn. destruct Hwf.
  repeat split; try (eapply square_nonempty; eassumption);
    (eapply Forall_impl; [eassumption|]);
    intros m Hm; eapply square_nonempty; eassumption.
Qed.



Lemma int_mul_nnucl (h : Hamiltonian_Atomistic) :
  wf h -> int_mul (nnucl h) (nnucl h) = Ret (nnucl h * nnucl h).
Proof.
  intros Hwf. destruct Hwf. unfold int_mul.
  destruct (Z.leb_spec (- INT_MAX - 1) (nnucl h * nnucl h));
    [|unfold INT_MAX in *; nia].
  destruct (Z.leb_spec (nnucl h * nnucl h) INT_MAX); [reflexivity|lia].
Qed.

(** The molecular-mechanics pass: the energy goes to the first entry of
    [ham_dia] and of [ham_adi], minus the forces to the first entries of the
    first derivatives in both representations, zero to the first entries of
    the second derivatives. *)
Lemma compute_MM_run (h : Hamiltonian_Atomistic) (syst : System)
    (mm : listHamiltonian_MM) (res : R) (its : list Interaction)
    (syst' : System) (calls : nat) :
  wf h -> 1 <= nelec h ->
  _syst h = Some syst ->
  mm_ham h = Some mm ->
  calculate_loop (interactions mm) (zero_forces_and_torques syst) (calc_calls h)
  = Ret (res, its, syst', calls) ->
  0 <= 3 * Number_of_atoms syst' <= nnucl h ->
  exists d1d d1a d2,
    compute_MM h
    = Ret (with_d2ham_dia d2 (with_d1ham_adi d1a (with_d1ham_dia d1d
        (with_ham_adi (put0 res (ham_adi h))
          (with_ham_dia (put0 res (ham_dia h))
            (with_calc_calls calls
              (with_mm_ham (Some (mklistHamiltonian_MM its))
                (with_syst (Some syst') h))))))))
    /\ written (fun n => - force_component syst' n)%R
         (3 * Number_of_atoms syst') d1d (d1ham_dia h)
    /\ written (fun n => - force_component syst' n)%R
         (3 * Number_of_atoms syst') d1a (d1ham_adi h)
    /\ written (fun _ => 0%R) (nnucl h * nnucl h) d2 (d2ham_dia h).
Proof.
  intros Hwf Hn Hsyst Hmm Hcalc HN.
  destruct (wf_nonempty h Hwf Hn) as (Hdia & Hadi & Hd1d & Hd1a & Hd2).
  pose proof (int_mul_nnucl h Hwf) as Hmul.
  destruct Hwf.
  destruct (d1_loop_written syst' (d1ham_dia h) (d1ham_adi h))
    as (d1d & d1a & Hd1 & Hwd & Hwa); try assumption; try lia.
  destruct (d2_loop_written (nnucl h * nnucl h) (d2ham_dia h))
    as (d2 & Hd2run & Hw2); [nia|assumption|].
  exists d1d, d1a, d2. split; [|auto].
  unfold compute_MM. rewrite Hsyst, Hmm. cbn [bind deref].
  rewrite Hcalc. cbn [bind].
  simpl. rewrite !set_M0_ok by assumption. cbn [bind]. simpl.
  rewrite Hd1. cbn [bind]. simpl.
  rewrite Hmul. cbn [bind]. rewrite Hd2run. reflexivity.
Qed.


(** *** The sizes of the storage are kept *)

Lemma for_each_preserves {S : Type} (P : S -> Prop)
    (body : Z -> S -> outcome S) (l : list Z) (s s' : S) :
  (forall i s s', body i s = Ret s' -> P s -> P s') ->
  P s -> for_each body l s = Ret s' -> P s'.
Proof.
  intros Hbody. revert s. induction l as [|i l IH]; intros s Hs; simpl.
  - now intros [= <-].
  - destruct (body i s) as [s1| |] eqn:Hb; cbn [bind]; try discriminate.
    apply IH. eapply Hbody; eassumption.
Qed.

Tactic Notation "bind_inv" hyp(H) "as" ident(a) ident(E) :=
  match type of H with
  | bind ?m _ = Ret _ =>
      destruct m as [a| |] eqn:E; cbn [bind] in H; try discriminate H
  end.

Lemma set_M0_inv (a : R) (m m' : MATRIX) : set_M0 a m = Ret m' -> m' = put0 a m.
Proof.
  unfold set_M0, store. destruct (_ && _); cbn [bind]; [|discriminate].
  now intros [= <-].
Qed.

Lemma set_M0_at_sized (n : nat) (k : Z) (v v' : list MATRIX) (i : Z) (a : R) :
  set_M0_at v i a = Ret v' -> sized n k v -> sized n k v'.
Proof.
  unfold set_M0_at, at_. intros Hrun [Hlen Hsq].
  destruct (i <? 0); [discriminate|].
  destruct (v !! Z.to_nat i) as [m|] eqn:Hm; cbn [bind] in Hrun; [|discriminate].
  bind_inv Hrun as m' E. apply set_M0_inv in E. subst.
  unfold store in Hrun. destruct (_ && _); [|discriminate].
  injection Hrun as <-. split; [now rewrite length_insert|].
  apply Forall_insert; [exact Hsq|]. apply put0_square.
  rewrite Forall_forall in Hsq. apply Hsq. eapply list_elem_of_lookup_2, Hm.
Qed.

Lemma set_force_at_sized (n : nat) (k : Z) (v v' : list MATRIX) (i : Z) (F : VECTOR) :
  set_force_at v i F = Ret v' -> sized n k v -> sized n k v'.
Proof.
  unfold set_force_at. intros Hrun Hv.
  bind_inv Hrun as v1 E1. bind_inv Hrun as v2 E2.
  eauto using set_M0_at_sized.
Qed.

Lemma compute_MM_wf (h h' : Hamiltonian_Atomistic) :
  wf h -> compute_MM h = Ret h' -> wf h'.
Proof.
  intros Hwf Hrun. destruct Hwf. unfold compute_MM in Hrun.
  bind_inv Hrun as syst Es. bind_inv Hrun as mm Em. bind_inv Hrun as r Er.
  destruct r as [[[res its] syst'] calls]. simpl in Hrun.
  bind_inv Hrun as dia Edia. bind_inv Hrun as adi Eadi.
  bind_inv Hrun as d1 E1. simpl in Hrun.
  bind_inv Hrun as n2 En. bind_inv Hrun as d2 E2. injection Hrun as <-.
  apply set_M0_inv in Edia, Eadi. subst.
  assert (Hd1 : sized (Z.to_nat (nnucl h)) (nelec h) (fst d1)
                /\ sized (Z.to_nat (nnucl h)) (nelec h) (snd d1)).
  { unfold d1_loop, for_range in E1.
    eapply (for_each_preserves
      (fun d : list MATRIX * list MATRIX =>
         sized (Z.to_nat (nnucl h)) (nelec h) (fst d)
         /\ sized (Z.to_nat (nnucl h)) (nelec h) (snd d))); [| |exact E1].
    - intros i [d a] s' Hb [Hd Ha]. cbv zeta in Hb.
      bind_inv Hb as d' Ed. bind_inv Hb as a' Ea. injection Hb as <-. simpl in *.
      eauto using set_force_at_sized.
    - simpl. unfold sized. auto. }
  assert (Hd2 : sized (Z.to_nat (nnucl h * nnucl h)) (nelec h) d2).
  { unfold d2_loop, for_range in E2.
    eapply (for_each_preserves (sized _ _)); [| |exact E2].
    - intros i s s' Hb Hs. eapply set_M0_at_sized; [exact Hb|exact Hs].
    - unfold sized. auto. }
  destruct Hd1 as [[? ?] [? ?]], Hd2 as [? ?].
  constructor; simpl; auto using put0_square.
Qed.

Lemma compute_diabatic_wf (h h' : Hamiltonian_Atomistic) :
  wf h -> compute_diabatic h = Ret h' -> wf h'.
Proof.
  intros Hwf. unfold compute_diabatic.
  destruct (status_dia h =? 0); [|now intros [= <-]].
  intros Hrun. bind_inv Hrun as t0 Et. bind_inv Hrun as h1 E1.
  injection Hrun as <-.
  assert (Hwf1 : wf h1).
  { destruct (t0 =? 1); [eapply compute_MM_wf; eassumption|].
    now injection E1 as <-. }
  destruct Hwf1. constructor; simpl; assumption.
Qed.

(** *** The adiabatic transformation *)

Lemma transform_loop_map (n : Z) (C : MATRIX) (dia adi : list MATRIX) :
  0 <= n ->
  length dia = Z.to_nat n -> length adi = Z.to_nat n ->
  transform_loop n C dia adi
  = Ret (map (fun D => mmul (mmul (T C) D) C) dia).
Proof.
  intros Hn Hdia Hadi. unfold transform_loop.
  destruct (for_range_inv
    (fun i (a : list MATRIX) => length a = length adi /\
       forall k : nat,
         a !! k = if Z.of_nat k <? i
                  then (fun D => mmul (mmul (T C) D) C) <$> dia !! k
                  else adi !! k)
    (fun n adi => do D <- at_ dia n; store adi n (mmul (mmul (T C) D) C))
    n adi) as (a' & Hrun & Hlen & Ha'); [exact Hn| | |].
  - split; [reflexivity|]. intros k.
    destruct (Z.ltb_spec (Z.of_nat k) 0); [lia|reflexivity].
  - intros i a Hi [Hl Ha].
    destruct (lookup_lt_is_Some_2 dia (Z.to_nat i)) as [D HD]; [lia|].
    rewrite (at_lookup dia i D) by (try lia; exact HD). cbn [bind].
    rewrite store_in by lia. eexists. split; [reflexivity|].
    split; [now rewrite length_insert|].
    intros k. destruct (decide (k = Z.to_nat i)) as [->|Hk].
    + rewrite list_lookup_insert_eq by lia.
      destruct (Z.ltb_spec (Z.of_nat (Z.to_nat i)) (i + 1)); [|lia].
      now rewrite HD.
    + rewrite list_lookup_insert_ne by congruence. rewrite Ha.
      destruct (Z.ltb_spec (Z.of_nat k) i), (Z.ltb_spec (Z.of_nat k) (i + 1));
        try reflexivity; lia.
  - rewrite Hrun. f_equal. apply list_eq. intros k.
    rewrite Ha', list_lookup_fmap.
    destruct (Z.ltb_spec (Z.of_nat k) n); [reflexivity|].
    rewrite !lookup_ge_None_2 by lia. reflexivity.
Qed.

(** C3.  [compute_adiabatic] first runs [compute_diabatic]; then, if the
    adiabatic result is stale, it hands [ham_dia] and the matrix [S] to the
    eigensolver, keeps the eigenvalue matrix as [ham_adi], replaces every
    [d1ham_adi[n]] by the product of the transpose of [C], [d1ham_dia[n]]
    and [C], and sets the adiabatic flag.  [S] is the identity: it is a left
    unit of the product.  With a solver that meets its contract the stored
    matrices satisfy [H_dia * C = S * C * H_adi]. *)
Theorem compute_adiabatic_transform (h h1 : Hamiltonian_Atomistic) :
  wf h ->
  compute_diabatic h = Ret h1 ->
  let S := Init_Unit_Matrix 1 (MATRIX_zero (nelec h1) (nelec h1)) in
  let E := fst (solve_eigen (nelec h1) (ham_dia h1) S) in
  let C := snd (solve_eigen (nelec h1) (ham_dia h1) S) in
  compute_adiabatic h
  = Ret (if status_adi h1 =? 0
         then with_status_adi 1
                (with_d1ham_adi
                   (map (fun D => mmul (mmul (T C) D) C) (d1ham_dia h1))
                   (with_ham_adi E h1))
         else h1)
  /\ (forall a, square (nelec h1) a -> mmul S a = a)
  /\ (status_adi h1 = 0 ->
      eigen_equation (ham_dia h1) S E C ->
      exists h2, compute_adiabatic h = Ret h2
        /\ eigen_equation (ham_dia h2) S (ham_adi h2) C
        /\ (forall (n : nat) D, d1ham_dia h2 !! n = Some D ->
              d1ham_adi h2 !! n = Some (mmul (mmul (T C) D) C))
        /\ status_adi h2 = 1
        /\ status_dia h2 = status_dia h1).
Proof.
  intros Hwf Hdia S E C.
  pose proof (compute_diabatic_wf h h1 Hwf Hdia) as Hwf1.
  assert (Hrun : compute_adiabatic h
    = Ret (if status_adi h1 =? 0
           then with_status_adi 1
                  (with_d1ham_adi
                     (map (fun D => mmul (mmul (T C) D) C) (d1ham_dia h1))
                     (with_ham_adi E h1))
           else h1)).
  { unfold compute_adiabatic. rewrite Hdia. cbn [bind].
    destruct (status_adi h1 =? 0); [|reflexivity].
    cbv zeta. simpl. destruct Hwf1.
    rewrite transform_loop_map by assumption. reflexivity. }
  split; [exact Hrun|split].
  - intros a (Hr & Hc & Hlen). apply mmul_unit_l; try assumption.
    now destruct Hwf1.
  - intros Hst Heq. rewrite Hrun, Hst. simpl.
    eexists. split; [reflexivity|]. simpl. repeat split; try assumption.
    intros n D HD. rewrite list_lookup_fmap, HD. reflexivity.
Qed.

End Hamiltonian_Atomistic_properties.

(** ** Runs of the code on the small models *)

Section runs.

Import libdyn libhamiltonian_atomistic spec models.

Open Scope R_scope.

Example Epot_MF_el2 : Epot_MF el2 (mk_table_ham [0; 0]) = 35.
Proof. vm_compute. lra. Qed.

Example forces_FSSH_el2 : forces_FSSH 2 el2 (mk_table_ham [0; 0]) = [-3; -4].
Proof. vm_compute. repeat f_equal; lra. Qed.

Lemma compute_potential_energy_mean_field_witness :
  compute_potential_energy mol2 el2 (mk_table_ham []) 0
  = Ret (Epot_MF el2 (mk_table_ham [0; 0]), mk_table_ham [0; 0]).
Proof.
  apply (compute_potential_energy_mean_field mol2 el2 (mk_table_ham [])
           (mk_table_ham [0; 0]) (mk_table_ham [0; 0]));
    [simpl; lia|simpl; lia|reflexivity|reflexivity].
Defined.


Lemma compute_forces_single_surface_witness :
  let done := Ret (with_f (forces_FSSH 2 el2 (mk_table_ham [0; 0])) mol2,
                   mk_table_ham [0; 0]) in
  compute_forces 0 mol2 el2 (mk_table_ham []) 1 = done
  /\ (compute_forces 0 mol2 el2 (mk_table_ham []) 1 = done
      \/ compute_forces 0 mol2 el2 (mk_table_ham []) 1 = Fault)
  /\ (forall el', el_istate el' = el_istate el2 ->
       compute_forces 0 mol2 el' (mk_table_ham []) 1
       = compute_forces 0 mol2 el2 (mk_table_ham []) 1).
Proof.
  destruct (compute_forces_single_surface 0 mol2 el2 (mk_table_ham [])
              (mk_table_ham [0; 0]) (mk_table_ham [0; 0]))
    as (Hin & Hany & Hel); [reflexivity|reflexivity|reflexivity|].
  split; [apply Hin; right; simpl; lia|exact (conj Hany Hel)].
Defined.

Lemma one_atom_wf : wf one_atom.
Proof.
  constructor; simpl; try (unfold INT_MAX; lia); try reflexivity;
    repeat constructor.
Qed.

Lemma fresh_new :
  Hamiltonian_Atomistic_new 1 3 = Ret (with_syst None fresh).
Proof. reflexivity. Qed.

Lemma one_atom_run : compute_diabatic one_atom = Ret one_atom_dia.
Proof. vm_compute. reflexivity. Qed.

Lemma set_q_size_check_witness :
  (set_q [1; 2; 3] one_atom = Exit 0 <-> Z.of_nat 3 <> 3%Z)
  /\ exists h', set_q [1; 2; 3] one_atom = Ret h'
        /\ q h' = [1; 2; 3] /\ status_dia h' = 0%Z /\ status_adi h' = 0%Z.
Proof.
  destruct (set_q_size_check [1; 2; 3] one_atom) as [Hexit Hok];
    [simpl; unfold INT_MAX; lia|].
  split; [exact Hexit|].
  exact (Hok eq_refl (mk_mock_system [4; 0; 0] [mkVECTOR 0 0 0]) eq_refl).
Defined.

Lemma set_v_size_check_witness :
  (set_v [1; 2; 3] one_atom_dia = Exit 0 <-> Z.of_nat 3 <> 3%Z)
  /\ exists h', set_v [1; 2; 3] one_atom_dia = Ret h'
        /\ v h' = [1; 2; 3] /\ status_adi h' = 0%Z
        /\ status_dia h' = 1%Z
        /\ ham_dia h' = ham_dia one_atom_dia
        /\ d1ham_dia h' = d1ham_dia one_atom_dia
        /\ d2ham_dia h' = d2ham_dia one_atom_dia.
Proof.
  destruct (set_v_size_check [1; 2; 3] one_atom_dia) as [Hexit Hok];
    [simpl; unfold INT_MAX; lia|].
  split; [exact Hexit|].
  exact (Hok eq_refl pulled eq_refl).
Defined.

Lemma set_Hamiltonian_type_selector_witness :
  set_Hamiltonian_type "QM" fresh = Exit 0
  /\ (exists h', set_Hamiltonian_type "MM" fresh = Ret h'
        /\ rep h' = 0%Z
        /\ mm_allocs h' = 1%nat
        /\ ham_types h' !! 0%nat = Some 1%Z)
  /\ (exists h', set_Hamiltonian_type_times 3 "MM" fresh = Ret h'
        /\ (mm_allocs h' <= 1)%nat).
Proof.
  destruct (set_Hamiltonian_type_selector "QM" 3 fresh) as [Hexit Hmm].
  split; [apply Hexit; discriminate|].
  exact (Hmm 0%Z eq_refl).
Defined.

Lemma compute_diabatic_idempotent_witness :
  compute_diabatic one_atom_dia = Ret one_atom_dia
  /\ (status_dia one_atom <> 0%Z -> one_atom_dia = one_atom).
Proof.
  apply (compute_diabatic_idempotent one_atom one_atom_dia). exact one_atom_run.
Defined.


Lemma one_atom_eigen :
  let S := Init_Unit_Matrix 1 (MATRIX_zero 1 1) in
  eigen_equation (ham_dia one_atom_dia) S (ham_dia one_atom_dia) S.
Proof.
  unfold eigen_equation, mmul. simpl. f_equal. vm_compute. f_equal. lra.
Qed.

Lemma compute_adiabatic_transform_witness :
  let S := Init_Unit_Matrix 1 (MATRIX_zero 1 1) in
  exists h2, compute_adiabatic one_atom = Ret h2
    /\ eigen_equation (ham_dia h2) S (ham_adi h2) S
    /\ (forall (n : nat) D, d1ham_dia h2 !! n = Some D ->
          d1ham_adi h2 !! n = Some (mmul (mmul (T S) D) S))
    /\ status_adi h2 = 1%Z
    /\ status_dia h2 = 1%Z.
Proof.
  exact (proj2 (proj2 (compute_adiabatic_transform one_atom one_atom_dia
                         one_atom_wf one_atom_run))
           eq_refl one_atom_eigen).
Defined.

End runs.

(** * Further properties *)

(** ** Loops that stop *)

Lemma at_no_exit {A : Type} (v : list A) (i c : Z) : at_ v i <> Exit c.
Proof.
  unfold at_. destruct (i <? 0); [discriminate|].
  destruct (v !! Z.to_nat i); discriminate.
Qed.

Lemma at_out {A : Type} (v : list A) (i : Z) :
  Z.of_nat (length v) <= i -> at_ v i = Fault.
Proof.
  intros Hi. unfold at_. destruct (Z.ltb_spec i 0); [reflexivity|].
  rewrite lookup_ge_None_2 by lia. reflexivity.
Qed.

Lemma for_each_no_exit {S : Type} (body : Z -> S -> outcome S)
    (l : list Z) (s : S) (c : Z) :
  (forall i s c, body i s <> Exit c) -> for_each body l s <> Exit c.
Proof.
  intros Hbody. revert s. induction l as [|i l IH]; intros s; simpl.
  - discriminate.
  - destruct (body i s) as [s'| |] eqn:Hb; cbn [bind];
      [apply IH|now apply Hbody in Hb|discriminate].
Qed.

Ltac at_cases :=
  match goal with
  | |- bind (at_ ?v ?k) _ = Fault =>
      let E := fresh "E" in
      destruct (at_ v k) eqn:E; cbn [bind];
        [|exfalso; exact (at_no_exit _ _ _ E)|reflexivity]
  end.

(** A loop one of whose iterations faults on every state, and none of whose
    iterations exits, faults. *)
Lemma for_each_fault {S : Type} (body : Z -> S -> outcome S)
    (l : list Z) (i0 : Z) (s : S) :
  In i0 l ->
  (forall s, body i0 s = Fault) ->
  (forall i s c, body i s <> Exit c) ->
  for_each body l s = Fault.
Proof.
  intros Hin Hf Hne. revert s. induction l as [|i l IH]; intros s; simpl.
  - destruct Hin.
  - destruct (Z.eq_dec i i0) as [->|Hi]; [now rewrite Hf|].
    destruct (body i s) as [s'| |] eqn:Hb; cbn [bind];
      [|now apply Hne in Hb|reflexivity].
    apply IH. destruct Hin; [contradiction|assumption].
Qed.

Lemma range_split (n i0 : Z) :
  0 <= i0 < n -> exists rest, range n = range i0 ++ i0 :: rest.
Proof.
  intros Hi. unfold range.
  replace (Z.to_nat n) with (Z.to_nat i0 + S (Z.to_nat n - S (Z.to_nat i0)))%nat
    by lia.
  rewrite seq_app, map_app. simpl. eexists. do 2 f_equal. lia.
Qed.

(** A counting loop faults when an invariant carries it to an iteration
    that faults. *)
Lemma for_range_fault {S : Type} (P : Z -> S -> Prop)
    (body : Z -> S -> outcome S) (n i0 : Z) (s : S) :
  0 <= i0 < n ->
  P 0 s ->
  (forall i s, 0 <= i < i0 -> P i s ->
     exists s', body i s = Ret s' /\ P (i + 1) s') ->
  (forall s, P i0 s -> body i0 s = Fault) ->
  for_range n body s = Fault.
Proof.
  intros Hi H0 Hstep Hfault.
  destruct (for_range_inv P body i0 s) as (s' & Hrun & HP); [lia|exact H0|exact Hstep|].
  destruct (range_split n i0 Hi) as [rest Hr].
  unfold for_range in *. rewrite Hr, for_each_app, Hrun. simpl.
  now rewrite Hfault.
Qed.

Lemma Rsum_range_succ (g : Z -> R) (n : Z) :
  0 <= n -> Rsum g (range (n + 1)) = (Rsum g (range n) + g n)%R.
Proof. intros Hn. rewrite range_succ, Rsum_app by exact Hn. simpl. lra. Qed.

Lemma Rsum_nonneg (g : Z -> R) (l : list Z) :
  (forall k, In k l -> (0 <= g k)%R) -> (0 <= Rsum g l)%R.
Proof.
  induction l as [|i l IH]; intros Hg; simpl; [lra|].
  assert (0 <= g i)%R by (apply Hg; left; reflexivity).
  assert (0 <= Rsum g l)%R by (apply IH; intros; apply Hg; right; assumption).
  lra.
Qed.

Lemma Rsum_scal (a : R) (g : Z -> R) (l : list Z) :
  Rsum (fun k => a * g k)%R l = (a * Rsum g l)%R.
Proof. induction l as [|i l IH]; simpl; [lra|rewrite IH; lra]. Qed.

(** ** Kinetic energy, bounds and the ensemble (libdyn) *)

Section Energy_and_Forces_more.

Import libdyn spec.

Context {Ham : Type} `{Hamiltonian Ham}.

Open Scope R_scope.

Lemma compute_kinetic_energy_run (mol : Nuclear) :
  (mol_nnucl mol <= Z.of_nat (length (mol_p mol)))%Z ->
  (mol_nnucl mol <= Z.of_nat (length (mol_mass mol)))%Z ->
  compute_kinetic_energy mol = Ret (Ekin_sum mol).
Proof.
  intros Hp Hm. unfold compute_kinetic_energy, for_range, Ekin_sum.
  rewrite (for_each_accumulate (fun k =>
     nth (Z.to_nat k) (mol_p mol) 0 * nth (Z.to_nat k) (mol_p mol) 0
     / nth (Z.to_nat k) (mol_mass mol) 0)).
  - cbn [bind]. f_equal. lra.
  - intros i a Hi. apply in_range in Hi.
    rewrite !(at_nth 0 (mol_p mol)) by lia. cbn [bind].
    rewrite (at_nth 0 (mol_mass mol)) by lia. reflexivity.
Qed.

(** X1.  [compute_kinetic_energy] returns 0.5 * Sum_k p_k^2 / mass_k over
    the [nnucl] degrees of freedom, when [p] and [mass] hold that many
    entries. *)
Theorem compute_kinetic_energy_sum (mol : Nuclear) :
  (mol_nnucl mol <= Z.of_nat (length (mol_p mol)))%Z ->
  (mol_nnucl mol <= Z.of_nat (length (mol_mass mol)))%Z ->
  compute_kinetic_energy mol = Ret (Ekin_sum mol).
Proof. exact (compute_kinetic_energy_run mol). Qed.

(** X2.  With positive masses the kinetic energy is not negative. *)
Theorem compute_kinetic_energy_nonneg (mol : Nuclear) :
  (mol_nnucl mol <= Z.of_nat (length (mol_p mol)))%Z ->
  (mol_nnucl mol <= Z.of_nat (length (mol_mass mol)))%Z ->
  (forall k, (0 <= k < mol_nnucl mol)%Z ->
     0 < nth (Z.to_nat k) (mol_mass mol) 0) ->
  exists Ekin, compute_kinetic_energy mol = Ret Ekin /\ 0 <= Ekin.
Proof.
  intros Hp Hm Hmass. exists (Ekin_sum mol).
  split; [now apply compute_kinetic_energy_run|].
  unfold Ekin_sum.
  assert (0 <= Rsum (fun k => nth (Z.to_nat k) (mol_p mol) 0
                              * nth (Z.to_nat k) (mol_p mol) 0
                              / nth (Z.to_nat k) (mol_mass mol) 0)
                    (range (mol_nnucl mol))); [|lra].
  apply Rsum_nonneg. intros k Hk. apply in_range in Hk.
  apply Rmult_le_pos; [apply Rle_0_sqr|].
  left. apply Rinv_0_lt_compat. now apply Hmass.
Qed.

(** X3.  Scaling every momentum by [a] scales the kinetic energy by [a*a]. *)
Theorem compute_kinetic_energy_scale (a : R) (mol : Nuclear) :
  (mol_nnucl mol <= Z.of_nat (length (mol_p mol)))%Z ->
  (mol_nnucl mol <= Z.of_nat (length (mol_mass mol)))%Z ->
  exists Ekin, compute_kinetic_energy mol = Ret Ekin
    /\ compute_kinetic_energy (with_p (map (Rmult a) (mol_p mol)) mol)
       = Ret (a * a * Ekin).
Proof.
  intros Hp Hm. exists (Ekin_sum mol).
  split; [now apply compute_kinetic_energy_run|].
  rewrite compute_kinetic_energy_run by (simpl; rewrite ?length_map; assumption).
  f_equal. unfold Ekin_sum. simpl.
  rewrite (Rsum_ext_in _ (fun k => a * a *
     (nth (Z.to_nat k) (mol_p mol) 0 * nth (Z.to_nat k) (mol_p mol) 0
      / nth (Z.to_nat k) (mol_mass mol) 0))).
  - rewrite Rsum_scal. lra.
  - intros k Hk. apply in_range in Hk.
    rewrite (nth_lookup (map _ _)), list_lookup_fmap.
    rewrite (nth_lookup (mol_p mol)).
    destruct (lookup_lt_is_Some_2 (mol_p mol) (Z.to_nat k)) as [pk ->]; [lia|].
    simpl. unfold Rdiv. ring.
Qed.

(** X4.  In mean-field mode the amplitude vectors are read without a check:
    when [el.q] or [el.p] holds fewer than [nstates] entries,
    [compute_potential_energy] reads past its end. *)
Theorem compute_potential_energy_short_amplitudes
    (mol : Nuclear) (el : Electronic) (ham ham1 ham2 : Ham) :
  set_q (mol_q mol) ham = Ret ham1 ->
  compute ham1 = Ret ham2 ->
  (Z.of_nat (length (el_q el)) < el_nstates el
   \/ Z.of_nat (length (el_p el)) < el_nstates el)%Z ->
  compute_potential_energy mol el ham 0 = Fault.
Proof.
  intros Hset Hcomp Hshort. unfold compute_potential_energy.
  rewrite Hset. cbn [bind]. rewrite Hcomp. cbn [bind]. simpl.
  assert (Hne : forall i j (a : R) c,
    (do qi <- at_ (el_q el) i; do qj <- at_ (el_q el) j;
     do p_i <- at_ (el_p el) i; do pj <- at_ (el_p el) j;
     let Heff := a + 0.5 * real (Hvib ham2 i j) * (qi * qj + p_i * pj) in
     do p_i' <- at_ (el_p el) i; do qj' <- at_ (el_q el) j;
     Ret (Heff + imag (Hvib ham2 i j) * p_i' * qj')) <> Exit c).
  { intros i j a c.
    repeat match goal with
    | |- bind (at_ ?v ?k) _ <> _ =>
        let E := fresh "E" in
        destruct (at_ v k) eqn:E; cbn [bind];
          [|now apply at_no_exit in E|discriminate]
    | |- (let _ := _ in _) <> _ => cbv zeta
    end. discriminate. }
  assert (Hfault : Heff_loop el ham2 = Fault); [|now rewrite Hfault].
  unfold Heff_loop, for_range.
  apply (for_each_fault _ _ 0%Z).
  - apply in_range. lia.
  - intros a. destruct Hshort as [Hq|Hp].
    + apply (for_each_fault _ _ (Z.of_nat (length (el_q el))));
        [apply in_range; lia| |intros j b c; apply Hne].
      intros b. at_cases.
      now rewrite at_out by lia.
    + apply (for_each_fault _ _ (Z.of_nat (length (el_p el))));
        [apply in_range; lia| |intros j b c; apply Hne].
      intros b. at_cases. at_cases. at_cases.
      now rewrite at_out by lia.
  - intros i a c. apply for_each_no_exit. intros j b c'. apply Hne.
Qed.

(** X5.  What the mean-field branch of [compute_forces] does to forces that
    are not zero on entry: when the store of line 77 lands inside [f], the
    entry it hits is cleared, and the gradient is subtracted from every
    entry, the old values of the others included. *)
Theorem compute_forces_mean_field_accumulates
    (k0 : Z) (mol : Nuclear) (el : Electronic) (ham ham1 ham2 : Ham) :
  set_q (mol_q mol) ham = Ret ham1 ->
  compute ham1 = Ret ham2 ->
  Z.of_nat (length (mol_f mol)) = mol_nnucl mol ->
  (el_nstates el <= Z.of_nat (length (el_q el)))%Z ->
  (el_nstates el <= Z.of_nat (length (el_p el)))%Z ->
  (0 <= k0 < mol_nnucl mol)%Z ->
  compute_forces k0 mol el ham 0
  = Ret (with_f (map (fun k =>
           nth (Z.to_nat k) (<[Z.to_nat k0 := 0]> (mol_f mol)) 0
           - dEdq_MF el ham2 k) (range (mol_nnucl mol))) mol, ham2).
Proof. exact (compute_forces_mean_field_run k0 mol el ham ham1 ham2). Qed.

(** X6.  When the forces are zero on entry the mean-field branch of
    [compute_forces] returns [f[k] = -dE/dq_k] for every degree of freedom,
    wherever inside [f] the store of line 77 lands. *)
Theorem compute_forces_mean_field_from_zero
    (k0 : Z) (mol : Nuclear) (el : Electronic) (ham ham1 ham2 : Ham) :
  set_q (mol_q mol) ham = Ret ham1 ->
  compute ham1 = Ret ham2 ->
  Z.of_nat (length (mol_f mol)) = mol_nnucl mol ->
  Forall (fun x => x = 0) (mol_f mol) ->
  (el_nstates el <= Z.of_nat (length (el_q el)))%Z ->
  (el_nstates el <= Z.of_nat (length (el_p el)))%Z ->
  (0 <= k0 < mol_nnucl mol)%Z ->
  compute_forces k0 mol el ham 0
  = Ret (with_f (forces_MF (mol_nnucl mol) el ham2) mol, ham2).
Proof.
  intros Hset Hcomp Hf Hzero Hq Hp Hk.
  rewrite (compute_forces_mean_field_run k0 mol el ham ham1 ham2) by assumption.
  do 3 f_equal. unfold forces_MF. apply map_ext_in. intros k Hin.
  apply in_range in Hin.
  assert (Hz : nth (Z.to_nat k) (<[Z.to_nat k0 := 0]> (mol_f mol)) 0 = 0).
  { rewrite nth_lookup.
    destruct (decide (Z.to_nat k0 = Z.to_nat k)) as [<-|Hne].
    - now rewrite list_lookup_insert_eq by lia.
    - rewrite list_lookup_insert_ne by exact Hne.
      destruct (mol_f mol !! Z.to_nat k) as [fk|] eqn:Hfk; [|reflexivity].
      simpl. rewrite Forall_forall in Hzero. apply Hzero.
      eapply list_elem_of_lookup_2, Hfk. }
  rewrite Hz. lra.
Qed.

(** X7.  [compute_energies] returns the averages over the trajectories of
    the kinetic and potential energies that [compute_kinetic_energy] and
    [compute_potential_energy] give for each of them, and their sum as the
    total; every Hamiltonian is left as its potential energy call leaves
    it. *)
Theorem compute_energies_averages (ens : Ensemble) (opt : Z)
    (ek ep : Z -> R) (ham' : Z -> Ham) :
  (0 < ens_ntraj ens)%Z ->
  (forall t, (0 <= t < ens_ntraj ens)%Z ->
     exists mol el ham,
       ens_mol ens !! Z.to_nat t = Some mol
       /\ ens_el ens !! Z.to_nat t = Some el
       /\ ens_ham ens !! Z.to_nat t = Some ham
       /\ compute_kinetic_energy mol = Ret (ek t)
       /\ compute_potential_energy mol el ham opt = Ret (ep t, ham' t)) ->
  let n := IZR (ens_ntraj ens) in
  let Epot := Rsum ep (range (ens_ntraj ens)) / n in
  let Ekin := Rsum ek (range (ens_ntraj ens)) / n in
  exists hams,
    compute_energies ens opt = Ret (Epot, Ekin, Ekin + Epot, hams)
    /\ length hams = length (ens_ham ens)
    /\ forall t, (0 <= t < ens_ntraj ens)%Z ->
         hams !! Z.to_nat t = Some (ham' t).
Proof.
  intros Hn Htraj n Epot Ekin. unfold compute_energies.
  destruct (for_range_inv
    (fun i (s : R * R * list Ham) =>
       fst (fst s) = Rsum ep (range i)
       /\ snd (fst s) = Rsum ek (range i)
       /\ length (snd s) = length (ens_ham ens)
       /\ forall k : nat,
            snd s !! k = if (Z.of_nat k <? i)%Z then Some (ham' (Z.of_nat k))
                         else ens_ham ens !! k)
    (fun traj '(Epot, Ekin, hams) =>
       do mol <- at_ (ens_mol ens) traj;
       do ek <- compute_kinetic_energy mol;
       do el <- at_ (ens_el ens) traj;
       do ham <- at_ hams traj;
       do r <- compute_potential_energy mol el ham opt;
       do hams <- store hams traj (snd r);
       Ret (Epot + fst r, Ekin + ek, hams))
    (ens_ntraj ens) (0, 0, ens_ham ens))
    as ([[Ep Ek] hams] & Hrun & HEp & HEk & Hlen & Hhams); [lia| | |].
  - simpl. repeat split; try reflexivity. intros k.
    destruct (Z.ltb_spec (Z.of_nat k) 0); [lia|reflexivity].
  - intros i [[Ep Ek] hams] Hi (HEp & HEk & Hlen & Hhams). simpl in *.
    destruct (Htraj i Hi) as (mol & el & ham & Hmol & Hel & Hham & Hk & Hp).
    rewrite (at_lookup _ i mol) by (try lia; exact Hmol). cbn [bind].
    rewrite Hk. cbn [bind].
    rewrite (at_lookup _ i el) by (try lia; exact Hel). cbn [bind].
    assert (Hh : hams !! Z.to_nat i = Some ham).
    { rewrite Hhams. destruct (Z.ltb_spec (Z.of_nat (Z.to_nat i)) i); [lia|exact Hham]. }
    rewrite (at_lookup _ i ham) by (try lia; exact Hh). cbn [bind].
    rewrite Hp. cbn [bind]. simpl.
    rewrite store_in by (apply lookup_lt_Some in Hh; lia). cbn [bind].
    eexists. split; [reflexivity|]. simpl.
    rewrite !Rsum_range_succ by lia.
    repeat split; [now rewrite HEp|now rewrite HEk|now rewrite length_insert|].
    intros k. destruct (decide (k = Z.to_nat i)) as [->|Hne].
    + rewrite list_lookup_insert_eq by (apply lookup_lt_Some in Hh; lia).
      destruct (Z.ltb_spec (Z.of_nat (Z.to_nat i)) (i + 1)); [|lia].
      do 2 f_equal. lia.
    + rewrite list_lookup_insert_ne by congruence. rewrite Hhams.
      destruct (Z.ltb_spec (Z.of_nat k) i), (Z.ltb_spec (Z.of_nat k) (i + 1));
        try reflexivity; lia.
  - simpl in *. exists hams. rewrite Hrun. cbn [bind]. simpl.
    subst Ep Ek. repeat split; [exact Hlen|].
    intros t Ht. rewrite Hhams.
    destruct (Z.ltb_spec (Z.of_nat (Z.to_nat t)) (ens_ntraj ens)); [|lia].
    do 2 f_equal. lia.
Qed.

End Energy_and_Forces_more.

(** ** The atomistic Hamiltonian: construction, invariants, caches *)

Tactic Notation "bind_inv" hyp(H) "as" ident(a) ident(E) :=
  match type of H with
  | bind ?m _ = Ret _ =>
      destruct m as [a| |] eqn:E; cbn [bind] in H; try discriminate H
  end.

Section Hamiltonian_Atomistic_more.

Import libhamiltonian_atomistic spec.

Context `{MM_services}.

Lemma square_zero (n : Z) : 0 <= n -> square n (MATRIX_zero n n).
Proof.
  intros Hn. unfold square, MATRIX_zero. simpl.
  now rewrite length_entries by exact Hn.
Qed.

Lemma square_unit (n : Z) :
  0 <= n -> square n (Init_Unit_Matrix 1 (MATRIX_zero n n)).
Proof.
  intros Hn. unfold square, Init_Unit_Matrix, MATRIX_zero. simpl.
  now rewrite length_entries by exact Hn.
Qed.

Lemma get_zero (n i j : Z) :
  0 <= i < n -> 0 <= j < n -> get (MATRIX_zero n n) i j = 0%R.
Proof.
  intros Hi Hj. unfold get, MATRIX_zero. simpl. now rewrite nth_entries.
Qed.

(** X8.  The constructor builds a well-formed object: square matrices of
    dimension [nelec], [nnucl] first derivatives in each representation and
    [nnucl*nnucl] second derivatives, all entries zero, both results stale
    and no model selected. *)
Theorem Hamiltonian_Atomistic_new_wf (_nelec _nnucl : Z) :
  0 <= _nelec -> 0 <= _nnucl -> _nnucl * _nnucl <= INT_MAX ->
  exists h, Hamiltonian_Atomistic_new _nelec _nnucl = Ret h
    /\ wf h /\ flags_ok h
    /\ nelec h = _nelec /\ nnucl h = _nnucl
    /\ status_dia h = 0 /\ status_adi h = 0
    /\ ham_types h !! 0%nat = Some 0
    /\ (forall i j, 0 <= i < _nelec -> 0 <= j < _nelec ->
          get (ham_dia h) i j = 0%R /\ get (ham_adi h) i j = 0%R)
    /\ (forall (k : nat) m, d1ham_dia h !! k = Some m \/ d1ham_adi h !! k = Some m
          \/ d2ham_dia h !! k = Some m -> m = MATRIX_zero _nelec _nelec).
Proof.
  intros Hne Hnn Hn2. unfold Hamiltonian_Atomistic_new.
  destruct (Z.ltb_spec _nelec 0); [lia|].
  destruct (Z.ltb_spec _nnucl 0); [lia|]. simpl.
  unfold int_mul.
  destruct (Z.leb_spec (- INT_MAX - 1) (_nnucl * _nnucl));
    [|unfold INT_MAX in *; nia].
  destruct (Z.leb_spec (_nnucl * _nnucl) INT_MAX); [|lia]. simpl.
  eexists. split; [reflexivity|].
  pose proof (square_zero _nelec Hne) as Hsq.
  split; [|split].
  - constructor; simpl; try assumption; try lia;
      rewrite ?length_replicate; try reflexivity;
      now apply Forall_replicate.
  - unfold flags_ok. simpl. repeat split; auto; try discriminate.
  - simpl. repeat split; try reflexivity; try (now apply get_zero).
    intros k m [Hm|[Hm|Hm]]; apply lookup_replicate in Hm; tauto.
Qed.

(** *** What a completed call leaves of the object *)

Lemma compute_MM_frame (h h' : Hamiltonian_Atomistic) :
  compute_MM h = Ret h' ->
  nelec h' = nelec h /\ nnucl h' = nnucl h /\ rep h' = rep h
  /\ status_dia h' = status_dia h /\ status_adi h' = status_adi h
  /\ ham_types h' = ham_types h /\ q h' = q h /\ v h' = v h
  /\ mm_allocs h' = mm_allocs h.
Proof.
  intros E1. unfold compute_MM in E1.
  bind_inv E1 as syst Es. bind_inv E1 as mm Em. bind_inv E1 as r Er.
  destruct r as [[[res its] syst'] calls]. simpl in E1.
  bind_inv E1 as dia Edia. bind_inv E1 as adi Eadi.
  bind_inv E1 as d1 Ed1. simpl in E1.
  bind_inv E1 as n2 En. bind_inv E1 as d2 Ed2. injection E1 as <-.
  simpl. auto 10.
Qed.

Lemma compute_diabatic_inv (h h1 : Hamiltonian_Atomistic) :
  compute_diabatic h = Ret h1 ->
  (status_dia h <> 0 /\ h1 = h)
  \/ (status_dia h = 0 /\ exists t0 h',
        ham_types h !! 0%nat = Some t0
        /\ (if t0 =? 1 then compute_MM h else Ret h) = Ret h'
        /\ h1 = with_status_dia 1 h').
Proof.
  unfold compute_diabatic.
  destruct (Z.eqb_spec (status_dia h) 0) as [Hz|Hnz];
    [|intros [= <-]; left; auto].
  intros Hrun. right. split; [exact Hz|].
  bind_inv Hrun as t0 Et. bind_inv Hrun as h' Eh. injection Hrun as <-.
  exists t0, h'. repeat split; try assumption.
  unfold at_ in Et. simpl in Et. change (Z.to_nat 0) with 0%nat in Et.
  destruct (ham_types h !! 0%nat); [|discriminate].
  now injection Et as ->.
Qed.

Lemma compute_diabatic_frame (h h1 : Hamiltonian_Atomistic) :
  compute_diabatic h = Ret h1 ->
  status_dia h1 <> 0
  /\ (status_dia h = 0 -> status_dia h1 = 1)
  /\ (status_dia h <> 0 -> h1 = h)
  /\ status_adi h1 = status_adi h.
Proof.
  intros Hrun. apply compute_diabatic_inv in Hrun.
  destruct Hrun as [[Hnz ->]|(Hz & t0 & h' & Ht & Hh' & ->)].
  - repeat split; auto. contradiction.
  - simpl. repeat split; try discriminate; try contradiction.
    destruct (t0 =? 1); [|now injection Hh' as <-].
    now apply compute_MM_frame in Hh'.
Qed.

Lemma compute_diabatic_skip (h : Hamiltonian_Atomistic) :
  status_dia h <> 0 -> compute_diabatic h = Ret h.
Proof.
  intros Hnz. unfold compute_diabatic.
  destruct (Z.eqb_spec (status_dia h) 0); [contradiction|reflexivity].
Qed.

Lemma compute_adiabatic_inv (h h2 : Hamiltonian_Atomistic) :
  compute_adiabatic h = Ret h2 ->
  exists h1, compute_diabatic h = Ret h1
    /\ ((status_adi h1 <> 0 /\ h2 = h1)
        \/ (status_adi h1 = 0 /\ exists E adi,
              h2 = with_status_adi 1 (with_d1ham_adi adi (with_ham_adi E h1))
              /\ E = fst (solve_eigen (nelec h1) (ham_dia h1)
                            (Init_Unit_Matrix 1
                               (MATRIX_zero (nelec h1) (nelec h1))))
              /\ transform_loop (nnucl h1)
                   (snd (solve_eigen (nelec h1) (ham_dia h1)
                           (Init_Unit_Matrix 1
                              (MATRIX_zero (nelec h1) (nelec h1)))))
                   (d1ham_dia h1) (d1ham_adi h1) = Ret adi)).
Proof.
  unfold compute_adiabatic. intros Hrun.
  bind_inv Hrun as h1 E1. exists h1. split; [reflexivity|].
  destruct (Z.eqb_spec (status_adi h1) 0) as [Hz|Hnz].
  - right. split; [exact Hz|]. cbv zeta in Hrun. simpl in Hrun.
    bind_inv Hrun as adi Ea. injection Hrun as <-.
    eexists _, adi. split; [reflexivity|]. split; reflexivity.
  - left. injection Hrun as <-. auto.
Qed.

(** X12.  [compute_adiabatic] changes nothing that [compute_diabatic]
    computed: the diabatic matrices, the coordinates, the system, the
    interactions and the count of the calls of [calculate] are the ones
    [compute_diabatic] leaves. *)
Theorem compute_adiabatic_keeps_diabatic (h h1 h2 : Hamiltonian_Atomistic) :
  compute_diabatic h = Ret h1 ->
  compute_adiabatic h = Ret h2 ->
  ham_dia h2 = ham_dia h1 /\ d1ham_dia h2 = d1ham_dia h1
  /\ d2ham_dia h2 = d2ham_dia h1 /\ status_dia h2 = status_dia h1
  /\ q h2 = q h1 /\ v h2 = v h1 /\ _syst h2 = _syst h1
  /\ mm_ham h2 = mm_ham h1 /\ calc_calls h2 = calc_calls h1.
Proof.
  intros Hdia Hrun. apply compute_adiabatic_inv in Hrun.
  destruct Hrun as (h1' & Hdia' & Hcase).
  rewrite Hdia in Hdia'. injection Hdia' as <-.
  destruct Hcase as [[_ ->]|(_ & E & adi & -> & _)]; simpl; auto 10.
Qed.

(** *** The flags *)

Lemma set_q_inv (q_ : list R) (h h' : Hamiltonian_Atomistic) :
  set_q q_ h = Ret h' ->
  exists syst, _syst h = Some syst
    /\ h' = with_syst (Some (set_atomic_q q_ syst))
              (with_status_adi 0 (with_status_dia 0 (with_q q_ h))).
Proof.
  unfold set_q. destruct (negb _); [discriminate|]. simpl.
  destruct (_syst h) as [syst|]; simpl; [|discriminate].
  intros [= <-]. eauto.
Qed.

Lemma set_v_inv (v_ : list R) (h h' : Hamiltonian_Atomistic) :
  set_v v_ h = Ret h' ->
  exists syst, _syst h = Some syst
    /\ h' = with_syst (Some (set_atomic_v v_ syst))
              (with_status_adi 0 (with_v v_ h)).
Proof.
  unfold set_v. destruct (negb _); [discriminate|]. simpl.
  destruct (_syst h) as [syst|]; simpl; [|discriminate].
  intros [= <-]. eauto.
Qed.

Lemma set_Hamiltonian_type_inv (ham_type : string) (h h' : Hamiltonian_Atomistic) :
  set_Hamiltonian_type ham_type h = Ret h' ->
  exists t0, ham_types h !! 0%nat = Some t0
    /\ h' = if t0 =? 0
            then with_ham_types (<[0%nat := 1]> (ham_types h))
                   (with_mm_allocs (S (mm_allocs h))
                      (with_mm_ham (Some (mklistHamiltonian_MM []))
                         (with_rep 0 h)))
            else with_rep 0 h.
Proof.
  intros Hrun.
  assert (Hmm : ham_type = "MM"%string).
  { unfold set_Hamiltonian_type in Hrun.
    destruct (String.eqb_spec ham_type "MM"); [assumption|discriminate]. }
  subst ham_type.
  destruct (ham_types h !! 0%nat) as [t0|] eqn:Ht.
  - rewrite (set_Hamiltonian_type_MM h t0 Ht) in Hrun.
    injection Hrun as <-. eauto.
  - unfold set_Hamiltonian_type, at_ in Hrun. simpl in Hrun.
    change (Z.to_nat 0) with 0%nat in Hrun.
    rewrite Ht in Hrun. discriminate.
Qed.

Lemma run_flags_ok (c : call) (h h' : Hamiltonian_Atomistic) :
  flags_ok h -> run c h = Ret h' -> flags_ok h'.
Proof.
  intros (Hd & Ha & Himp) Hrun. destruct c; simpl in Hrun.
  - apply set_Hamiltonian_type_inv in Hrun. destruct Hrun as (t0 & _ & ->).
    destruct (t0 =? 0); unfold flags_ok; simpl; auto.
  - apply set_q_inv in Hrun. destruct Hrun as (syst & _ & ->).
    unfold flags_ok. simpl. repeat split; auto; try discriminate.
  - apply set_v_inv in Hrun. destruct Hrun as (syst & _ & ->).
    unfold flags_ok. simpl. repeat split; auto; try discriminate.
  - apply compute_diabatic_frame in Hrun.
    destruct Hrun as (Hf & Hone & Hsame & Hadi).
    unfold flags_ok. rewrite Hadi.
    destruct Hd as [Hd|Hd].
    + rewrite (Hone Hd). auto.
    + rewrite Hsame by lia. auto.
  - apply compute_adiabatic_inv in Hrun. destruct Hrun as (h1 & Hdia & Hcase).
    apply compute_diabatic_frame in Hdia.
    destruct Hdia as (Hf & Hone & Hsame & Hadi).
    assert (Hd1 : status_dia h1 = 1).
    { destruct Hd as [Hd|Hd]; [auto|]. rewrite Hsame by lia. exact Hd. }
    destruct Hcase as [[Hnz ->]|(Hz & E & adi & -> & _)];
      unfold flags_ok; simpl; rewrite ?Hadi, ?Hd1; auto.
Qed.

(** X10.  Over any sequence of calls the two flags stay 0 or 1, and the
    adiabatic result is never marked fresh while the diabatic one is
    stale. *)
Theorem run_all_flags_ok (cs : list call) (h h' : Hamiltonian_Atomistic) :
  flags_ok h -> run_all cs h = Ret h' -> flags_ok h'.
Proof.
  revert h. induction cs as [|c cs IH]; intros h Hok; simpl.
  - now intros [= <-].
  - intros Hrun. bind_inv Hrun as h1 E1.
    eapply IH; [|exact Hrun]. eapply run_flags_ok; eassumption.
Qed.

(** *** The sizes of the storage over any sequence of calls *)

Lemma transform_loop_sized (n : Z) (k : Z) (C : MATRIX)
    (dia adi adi' : list MATRIX) (len : nat) :
  0 <= k -> num_of_cols C = k ->
  transform_loop n C dia adi = Ret adi' ->
  sized len k adi -> sized len k adi'.
Proof.
  intros Hk HC Hrun Hs. unfold transform_loop, for_range in Hrun.
  eapply (for_each_preserves (sized len k)); [|exact Hs|exact Hrun].
  intros i s s' Hb [Hlen Hsq]. simpl in Hb.
  bind_inv Hb as D ED. unfold store in Hb.
  destruct (_ && _); [|discriminate]. injection Hb as <-.
  split; [now rewrite length_insert|].
  apply Forall_insert; [exact Hsq|].
  unfold square, mmul, T. simpl. rewrite HC.
  now rewrite length_entries by lia.
Qed.

Lemma run_wf (c : call) (h h' : Hamiltonian_Atomistic) :
  solver_sized -> wf h -> run c h = Ret h' -> wf h'.
Proof.
  intros Hsolver Hwf Hrun. destruct c; simpl in Hrun.
  - apply set_Hamiltonian_type_inv in Hrun. destruct Hrun as (t0 & _ & ->).
    destruct Hwf. destruct (t0 =? 0); constructor; simpl;
      rewrite ?length_insert; assumption.
  - apply set_q_inv in Hrun. destruct Hrun as (syst & _ & ->).
    destruct Hwf. constructor; simpl; assumption.
  - apply set_v_inv in Hrun. destruct Hrun as (syst & _ & ->).
    destruct Hwf. constructor; simpl; assumption.
  - eapply compute_diabatic_wf; eassumption.
  - apply compute_adiabatic_inv in Hrun. destruct Hrun as (h1 & Hdia & Hcase).
    pose proof (compute_diabatic_wf h h1 Hwf Hdia) as Hwf1.
    destruct Hcase as [[_ ->]|(_ & E & adi & -> & -> & Hloop)]; [exact Hwf1|].
    destruct Hwf1.
    destruct (Hsolver (nelec h1) (ham_dia h1)
                (Init_Unit_Matrix 1 (MATRIX_zero (nelec h1) (nelec h1))))
      as [HE HC]; [assumption|assumption|now apply square_unit|].
    destruct (transform_loop_sized _ (nelec h1) _ _ _ _ (Z.to_nat (nnucl h1))
                wf_nelec0 HC Hloop) as [Hlen Hsq]; [split; assumption|].
    constructor; simpl; assumption.
Qed.

(** X9.  With an eigensolver that returns matrices of the dimension it is
    given, every sequence of calls keeps the storage well formed: the
    matrices stay square of dimension [nelec] and the vectors of
    derivatives keep their [nnucl] and [nnucl*nnucl] entries. *)
Theorem run_all_wf (cs : list call) (h h' : Hamiltonian_Atomistic) :
  solver_sized -> wf h -> run_all cs h = Ret h' -> wf h'.
Proof.
  intros Hsolver. revert h. induction cs as [|c cs IH]; intros h Hwf; simpl.
  - now intros [= <-].
  - intros Hrun. bind_inv Hrun as h1 E1.
    eapply IH; [|exact Hrun]. eapply run_wf; eassumption.
Qed.


(** *** Which calls make the force field run *)

Lemma with_q_wf (q_ : list R) (syst : option System) (h : Hamiltonian_Atomistic) :
  wf h -> wf (with_syst syst (with_status_adi 0 (with_status_dia 0 (with_q q_ h)))).
Proof. intros Hwf. destruct Hwf. constructor; simpl; assumption. Qed.

(** X13.  [set_q] always makes the next [compute_diabatic] run the force
    field, whether or not the diabatic result was fresh and whatever the
    coordinates are: for a Hamiltonian of MM type, [calculate] is called
    once for each interaction and the diabatic flag is set again. *)
Theorem set_q_then_compute_diabatic
    (q_ : list R) (h : Hamiltonian_Atomistic) (syst : System)
    (mm : listHamiltonian_MM) :
  wf h -> 1 <= nelec h ->
  ham_types h !! 0%nat = Some 1 ->
  _syst h = Some syst ->
  mm_ham h = Some mm ->
  Z.of_nat (length q_) = nnucl h ->
  (forall res its syst' calls,
     calculate_loop (interactions mm)
       (zero_forces_and_torques (set_atomic_q q_ syst)) (calc_calls h)
     = Ret (res, its, syst', calls) ->
     0 <= 3 * Number_of_atoms syst' <= nnucl h) ->
  exists h1 h2,
    set_q q_ h = Ret h1
    /\ compute_diabatic h1 = Ret h2
    /\ status_dia h2 = 1
    /\ calc_calls h2 = (calc_calls h + length (interactions mm))%nat.
Proof.
  intros Hwf Hn Hty Hsyst Hmm Hlen Hatoms.
  assert (Hnn : 0 <= nnucl h <= INT_MAX).
  { destruct Hwf. split; [assumption|]. unfold INT_MAX in *. nia. }
  set (h1 := with_syst (Some (set_atomic_q q_ syst))
               (with_status_adi 0 (with_status_dia 0 (with_q q_ h)))).
  assert (Hset : set_q q_ h = Ret h1).
  { unfold set_q. rewrite size_t_of_int by exact Hnn.
    destruct (Z.eqb_spec (Z.of_nat (length q_)) (nnucl h)); [|contradiction].
    simpl. rewrite Hsyst. reflexivity. }
  destruct (calculate_loop_total (interactions mm)
              (zero_forces_and_torques (set_atomic_q q_ syst)) (calc_calls h))
    as (res & its & syst' & Hcalc).
  destruct (compute_MM_run h1 (set_atomic_q q_ syst) mm res its syst'
              (calc_calls h + length (interactions mm))%nat)
    as (d1d & d1a & d2 & Hrun & _);
    [now apply with_q_wf|exact Hn|reflexivity|exact Hmm|exact Hcalc
    |exact (Hatoms _ _ _ _ Hcalc)|].
  exists h1. eexists. split; [exact Hset|]. split.
  - unfold compute_diabatic.
    change (status_dia h1 =? 0) with true. cbv iota.
    rewrite (at_lookup _ 0 1) by (try lia; exact Hty). cbn [bind].
    change (1 =? 1) with true. cbv iota.
    rewrite Hrun. reflexivity.
  - split; reflexivity.
Qed.

(** X14.  [set_v] does not make the force field run: when the diabatic
    result is fresh, a [compute_diabatic] that follows [set_v] returns at
    once, with the diabatic matrices and the count of the calls of
    [calculate] as they were before [set_v]. *)
Theorem set_v_then_compute_diabatic
    (v_ : list R) (h : Hamiltonian_Atomistic) (syst : System) :
  0 <= nnucl h <= INT_MAX ->
  status_dia h <> 0 ->
  _syst h = Some syst ->
  Z.of_nat (length v_) = nnucl h ->
  exists h1,
    set_v v_ h = Ret h1
    /\ compute_diabatic h1 = Ret h1
    /\ calc_calls h1 = calc_calls h
    /\ ham_dia h1 = ham_dia h /\ d1ham_dia h1 = d1ham_dia h
    /\ d2ham_dia h1 = d2ham_dia h
    /\ status_adi h1 = 0.
Proof.
  intros Hnn Hfresh Hsyst Hlen. eexists. split.
  { unfold set_v. rewrite size_t_of_int by exact Hnn.
    destruct (Z.eqb_spec (Z.of_nat (length v_)) (nnucl h)); [|contradiction].
    simpl. rewrite Hsyst. reflexivity. }
  split; [apply compute_diabatic_skip; exact Hfresh|].
  simpl. auto 10.
Qed.

(** X15.  With no model selected ([ham_types[0]] is not 1)
    [compute_diabatic] on a stale object computes nothing and reports no
    error: it only sets the diabatic flag, so the matrices keep the values
    they had (zero after the constructor) and are marked fresh. *)
Theorem compute_diabatic_no_model (h : Hamiltonian_Atomistic) (t0 : Z) :
  status_dia h = 0 ->
  ham_types h !! 0%nat = Some t0 ->
  t0 <> 1 ->
  compute_diabatic h = Ret (with_status_dia 1 h)
  /\ forall h1, compute_diabatic h = Ret h1 ->
       compute_diabatic h1 = Ret h1
       /\ ham_dia h1 = ham_dia h /\ d1ham_dia h1 = d1ham_dia h
       /\ calc_calls h1 = calc_calls h.
Proof.
  intros Hst Hty Hne.
  assert (Hrun : compute_diabatic h = Ret (with_status_dia 1 h)).
  { unfold compute_diabatic. rewrite Hst. simpl.
    rewrite (at_lookup _ 0 t0) by (try lia; exact Hty). cbn [bind].
    destruct (Z.eqb_spec t0 1); [contradiction|reflexivity]. }
  split; [exact Hrun|]. intros h1 Hh1. rewrite Hrun in Hh1.
  injection Hh1 as <-. split; [|simpl; auto].
  apply compute_diabatic_skip. simpl. discriminate.
Qed.

(** *** Writes outside the storage *)

Lemma set_M0_at_out (v : list MATRIX) (i : Z) (a : R) :
  Z.of_nat (length v) <= i -> set_M0_at v i a = Fault.
Proof. intros Hi. unfold set_M0_at. now rewrite at_out. Qed.

Lemma set_force_at_out (syst : System) (i : Z) (v' v : list MATRIX) :
  written (fun n => - force_component syst n)%R (3 * i) v' v ->
  0 <= i -> 3 * i <= Z.of_nat (length v) <= 3 * i + 2 ->
  Forall nonempty v ->
  set_force_at v' i (rb_force syst i) = Fault.
Proof.
  intros Hw Hi Hlen Hne. unfold set_force_at.
  destruct (force_component_3 syst i) as (Hx & Hy & Hz).
  pose proof (proj1 Hw) as Hl0.
  destruct (Z.eq_dec (Z.of_nat (length v)) (3 * i)) as [He|Hn0].
  { now rewrite set_M0_at_out by lia. }
  destruct (set_M0_at_written _ (3 * i) (- x (rb_force syst i))%R _ _ Hw)
    as (v1 & -> & Hw1); [lia|exact Hne|now rewrite Hx|]. cbn [bind].
  pose proof (proj1 Hw1) as Hl1.
  destruct (Z.eq_dec (Z.of_nat (length v)) (3 * i + 1)) as [He|Hn1].
  { now rewrite set_M0_at_out by lia. }
  destruct (set_M0_at_written _ (3 * i + 1) (- y (rb_force syst i))%R _ _ Hw1)
    as (v2 & -> & Hw2); [lia|exact Hne|now rewrite Hy|]. cbn [bind].
  pose proof (proj1 Hw2) as Hl2.
  now rewrite set_M0_at_out by lia.
Qed.

Lemma d1_loop_out (syst : System) (dia adi : list MATRIX) :
  Z.of_nat (length dia) < 3 * Number_of_atoms syst ->
  length adi = length dia ->
  Forall nonempty dia -> Forall nonempty adi ->
  d1_loop syst (dia, adi) = Fault.
Proof.
  intros Hshort Hlen Hne1 Hne2. unfold d1_loop.
  apply (for_range_fault
    (fun i (d : list MATRIX * list MATRIX) =>
       written (fun n => - force_component syst n)%R (3 * i) (fst d) dia
       /\ written (fun n => - force_component syst n)%R (3 * i) (snd d) adi)
    _ _ (Z.of_nat (length dia) / 3)).
  - split; [apply Z.div_pos; lia|apply Z.div_lt_upper_bound; lia].
  - split; apply written_refl; lia.
  - intros i [d a] Hi [Hw1 Hw2]. simpl in Hw1, Hw2. cbv zeta.
    assert (3 * i + 2 < Z.of_nat (length dia))
      by (Z.div_mod_to_equations; lia).
    destruct (set_force_at_written syst i d dia Hw1) as (d' & -> & Hd');
      [lia|lia|exact Hne1|]. cbn [bind].
    destruct (set_force_at_written syst i a adi Hw2) as (a' & -> & Ha');
      [lia|lia|exact Hne2|]. cbn [bind].
    exists (d', a'). auto.
  - intros [d a] [Hw1 _]. simpl in Hw1. cbv zeta.
    rewrite (set_force_at_out syst _ d dia Hw1); [reflexivity| | |exact Hne1];
      Z.div_mod_to_equations; lia.
Qed.

(** X16.  [compute_diabatic] does not check the number of atoms against
    [nnucl]: for a Hamiltonian of MM type whose system holds more than
    [nnucl/3] atoms, the loop over the atoms writes past the end of
    [d1ham_dia]. *)
Theorem compute_diabatic_too_many_atoms (h : Hamiltonian_Atomistic)
    (syst : System) (mm : listHamiltonian_MM) (res : R)
    (its : list Interaction) (syst' : System) (calls : nat) :
  wf h -> 1 <= nelec h ->
  status_dia h = 0 ->
  ham_types h !! 0%nat = Some 1 ->
  _syst h = Some syst ->
  mm_ham h = Some mm ->
  calculate_loop (interactions mm) (zero_forces_and_torques syst) (calc_calls h)
  = Ret (res, its, syst', calls) ->
  nnucl h < 3 * Number_of_atoms syst' ->
  compute_diabatic h = Fault.
Proof.
  intros Hwf Hn Hst Hty Hsyst Hmm Hcalc HN.
  destruct (wf_nonempty h Hwf Hn) as (Hdia & Hadi & Hd1d & Hd1a & Hd2).
  destruct Hwf.
  unfold compute_diabatic. rewrite Hst. simpl.
  rewrite (at_lookup _ 0 1) by (try lia; exact Hty). cbn [bind]. simpl.
  unfold compute_MM. rewrite Hsyst, Hmm. cbn [bind deref].
  rewrite Hcalc. cbn [bind]. simpl.
  rewrite !set_M0_ok by assumption. cbn [bind]. simpl.
  rewrite d1_loop_out; [reflexivity| | |assumption|assumption]; lia.
Qed.

(** X17.  With no electronic state ([nelec = 0]) the matrices have no entry,
    and [compute_diabatic] for a Hamiltonian of MM type writes the energy
    past the end of [ham_dia]. *)
Theorem compute_diabatic_no_state (h : Hamiltonian_Atomistic)
    (syst : System) (mm : listHamiltonian_MM) :
  wf h -> nelec h = 0 ->
  status_dia h = 0 ->
  ham_types h !! 0%nat = Some 1 ->
  _syst h = Some syst ->
  mm_ham h = Some mm ->
  compute_diabatic h = Fault.
Proof.
  intros Hwf Hn Hst Hty Hsyst Hmm. destruct Hwf.
  unfold compute_diabatic. rewrite Hst. simpl.
  rewrite (at_lookup _ 0 1) by (try lia; exact Hty). cbn [bind]. simpl.
  unfold compute_MM. rewrite Hsyst, Hmm. cbn [bind deref].
  destruct (calculate_loop_total (interactions mm)
              (zero_forces_and_torques syst) (calc_calls h))
    as (res & its & syst' & ->). cbn [bind]. simpl.
  unfold set_M0. rewrite store_out; [reflexivity|].
  destruct wf_ham_dia0 as (_ & _ & Hl). rewrite Hl, Hn. simpl. lia.
Qed.

(** X18.  Selecting "MM" twice is the same as selecting it once: the second
    call returns the object of the first as it is, with the interactions it
    holds. *)
Theorem set_Hamiltonian_type_idempotent (h h1 : Hamiltonian_Atomistic) :
  set_Hamiltonian_type "MM" h = Ret h1 ->
  set_Hamiltonian_type "MM" h1 = Ret h1.
Proof.
  intros Hrun. apply set_Hamiltonian_type_inv in Hrun.
  destruct Hrun as (t0 & Ht & ->).
  destruct (Z.eqb_spec t0 0) as [->|Hne].
  - erewrite set_Hamiltonian_type_MM
      by (simpl; apply list_lookup_insert_eq; eapply lookup_lt_Some, Ht).
    reflexivity.
  - erewrite set_Hamiltonian_type_MM by (simpl; exact Ht).
    destruct (Z.eqb_spec t0 0); [contradiction|reflexivity].
Qed.

End Hamiltonian_Atomistic_more.

(** *** The eigensolver is reached once *)

Section Hamiltonian_Atomistic_solver.

Import libhamiltonian_atomistic spec.

Context `{MM_services}.

(** X11.  A second [compute_adiabatic] with no [set_q] or [set_v] in
    between returns the object of the first call as it is, the count of the
    calls of [calculate] included, and it does so whatever the eigensolver
    would return at that moment: the eigenproblem is not solved again. *)
Theorem compute_adiabatic_idempotent (h h2 : Hamiltonian_Atomistic)
    (f : Z -> MATRIX -> MATRIX -> MATRIX * MATRIX) :
  compute_adiabatic h = Ret h2 ->
  compute_adiabatic h2 = Ret h2
  /\ @compute_adiabatic (other_solver.with_solver _ f) (other_solver.over f h2)
     = Ret (other_solver.over f h2).
Proof.
  intros Hrun. apply compute_adiabatic_inv in Hrun.
  destruct Hrun as (h1 & Hdia & Hcase).
  apply compute_diabatic_frame in Hdia. destruct Hdia as (Hfresh & _ & _ & _).
  assert (Hf2 : status_dia h2 <> 0 /\ status_adi h2 <> 0).
  { destruct Hcase as [[Hnz ->]|(Hz & E & adi & -> & _)]; [auto|].
    simpl. split; [exact Hfresh|discriminate]. }
  destruct Hf2 as [Hd Ha]. split.
  - unfold compute_adiabatic.
    rewrite compute_diabatic_skip by exact Hd. cbn [bind].
    destruct (Z.eqb_spec (status_adi h2) 0); [contradiction|reflexivity].
  - unfold compute_adiabatic.
    rewrite (@compute_diabatic_skip (other_solver.with_solver _ f))
      by exact Hd.
    cbn [bind].
    change (status_adi (other_solver.over f h2)) with (status_adi h2).
    destruct (Z.eqb_spec (status_adi h2) 0); [contradiction|reflexivity].
Qed.

End Hamiltonian_Atomistic_solver.

(** ** Further runs on the small models *)

Section more_runs.

Import libdyn libhamiltonian_atomistic spec models.

Open Scope R_scope.

Example Ekin_sum_mol3 : Ekin_sum mol3 = 4.25.
Proof. vm_compute. lra. Qed.

Lemma compute_kinetic_energy_sum_witness :
  compute_kinetic_energy mol3 = Ret (Ekin_sum mol3).
Proof.
  apply (compute_kinetic_energy_sum mol3); simpl; lia.
Defined.

Lemma mol3_mass_pos (k : Z) :
  (0 <= k < 2)%Z -> 0 < nth (Z.to_nat k) (mol_mass mol3) 0.
Proof.
  intros Hk. assert (Hc : k = 0%Z \/ k = 1%Z) by lia.
  destruct Hc as [->| ->]; simpl; lra.
Qed.

Lemma compute_kinetic_energy_nonneg_witness :
  exists Ekin, compute_kinetic_energy mol3 = Ret Ekin /\ 0 <= Ekin.
Proof.
  apply (compute_kinetic_energy_nonneg mol3);
    [simpl; lia|simpl; lia|exact mol3_mass_pos].
Defined.

Lemma compute_kinetic_energy_scale_witness :
  exists Ekin, compute_kinetic_energy mol3 = Ret Ekin
    /\ compute_kinetic_energy (with_p (map (Rmult 2) (mol_p mol3)) mol3)
       = Ret (2 * 2 * Ekin).
Proof.
  apply (compute_kinetic_energy_scale 2 mol3); simpl; lia.
Defined.

Lemma compute_potential_energy_short_amplitudes_witness :
  compute_potential_energy mol2 el_short (mk_table_ham []) 0 = Fault.
Proof.
  apply (compute_potential_energy_short_amplitudes mol2 el_short
           (mk_table_ham []) (mk_table_ham [0; 0]) (mk_table_ham [0; 0]));
    [reflexivity|reflexivity|left; simpl; lia].
Defined.

Lemma compute_forces_mean_field_accumulates_witness :
  compute_forces 0 mol2 el1 (mk_table_ham []) 0
  = Ret (with_f (map (fun k =>
           nth (Z.to_nat k) (<[Z.to_nat 0 := 0]> (mol_f mol2)) 0
           - dEdq_MF el1 (mk_table_ham [0; 0]) k) (range 2)) mol2,
         mk_table_ham [0; 0]).
Proof.
  apply (compute_forces_mean_field_accumulates 0 mol2 el1 (mk_table_ham [])
           (mk_table_ham [0; 0]) (mk_table_ham [0; 0]));
    [reflexivity|reflexivity|reflexivity|simpl; lia|simpl; lia|simpl; lia].
Defined.

Lemma compute_forces_mean_field_from_zero_witness :
  compute_forces 1 mol3 el1 (mk_table_ham []) 0
  = Ret (with_f (forces_MF 2 el1 (mk_table_ham [0; 0])) mol3,
         mk_table_ham [0; 0]).
Proof.
  apply (compute_forces_mean_field_from_zero 1 mol3 el1 (mk_table_ham [])
           (mk_table_ham [0; 0]) (mk_table_ham [0; 0]));
    [reflexivity|reflexivity|reflexivity|repeat constructor
    |simpl; lia|simpl; lia|simpl; lia].
Defined.

Lemma ens2_trajectories (t : Z) :
  (0 <= t < 2)%Z ->
  exists mol el ham,
    ens_mol ens2 !! Z.to_nat t = Some mol
    /\ ens_el ens2 !! Z.to_nat t = Some el
    /\ ens_ham ens2 !! Z.to_nat t = Some ham
    /\ compute_kinetic_energy mol
       = Ret (Ekin_sum (nth (Z.to_nat t) [mol3; mol2] mol2))
    /\ compute_potential_energy mol el ham 1
       = Ret (real (H (mk_table_ham [0; 0]) 1 1), mk_table_ham [0; 0]).
Proof.
  intros Ht. assert (Hc : t = 0%Z \/ t = 1%Z) by lia.
  destruct Hc as [->| ->]; simpl; eexists _, _, _;
    repeat split; try reflexivity;
    apply compute_kinetic_energy_run; simpl; lia.
Qed.

Lemma compute_energies_averages_witness :
  let ek := fun t => Ekin_sum (nth (Z.to_nat t) [mol3; mol2] mol2) in
  let ep := fun _ : Z => real (H (mk_table_ham [0; 0]) 1 1) in
  let Epot := Rsum ep (range 2) / IZR 2 in
  let Ekin := Rsum ek (range 2) / IZR 2 in
  exists hams,
    compute_energies ens2 1 = Ret (Epot, Ekin, Ekin + Epot, hams)
    /\ length hams = 2%nat
    /\ forall t, (0 <= t < 2)%Z ->
         hams !! Z.to_nat t = Some (mk_table_ham [0; 0]).
Proof.
  apply (compute_energies_averages ens2 1
           (fun t => Ekin_sum (nth (Z.to_nat t) [mol3; mol2] mol2))
           (fun _ => real (H (mk_table_ham [0; 0]) 1 1))
           (fun _ => mk_table_ham [0; 0]));
    [simpl; lia|exact ens2_trajectories].
Defined.

Lemma Hamiltonian_Atomistic_new_wf_witness :
  exists h, Hamiltonian_Atomistic_new 1 3 = Ret h
    /\ wf h /\ flags_ok h
    /\ nelec h = 1%Z /\ nnucl h = 3%Z
    /\ status_dia h = 0%Z /\ status_adi h = 0%Z
    /\ ham_types h !! 0%nat = Some 0%Z
    /\ (forall i j, (0 <= i < 1)%Z -> (0 <= j < 1)%Z ->
          get (ham_dia h) i j = 0 /\ get (ham_adi h) i j = 0)
    /\ (forall (k : nat) m, d1ham_dia h !! k = Some m \/ d1ham_adi h !! k = Some m
          \/ d2ham_dia h !! k = Some m -> m = MATRIX_zero 1 1).
Proof.
  apply (Hamiltonian_Atomistic_new_wf 1 3); unfold INT_MAX; lia.
Defined.

Lemma mock_solver_sized : solver_sized.
Proof.
  intros n Hm S Hn HHm HS. simpl. split; [exact HHm|]. now destruct HS as (_ & ? & _).
Qed.

Lemma one_atom_flags_ok : flags_ok one_atom.
Proof. unfold flags_ok. simpl. repeat split; auto; discriminate. Qed.

Lemma one_step_runs : run_all one_step one_atom = Ret one_step_end.
Proof. vm_compute. reflexivity. Qed.

Example one_step_end_flags :
  status_dia one_step_end = 1%Z /\ status_adi one_step_end = 0%Z
  /\ calc_calls one_step_end = 1%nat.
Proof. vm_compute. auto. Qed.

Lemma run_all_wf_witness : wf one_step_end.
Proof.
  exact (run_all_wf one_step one_atom one_step_end mock_solver_sized
           one_atom_wf one_step_runs).
Defined.

Lemma run_all_flags_ok_witness : flags_ok one_step_end.
Proof.
  exact (run_all_flags_ok one_step one_atom one_step_end one_atom_flags_ok
           one_step_runs).
Defined.

Lemma one_atom_adiabatic : compute_adiabatic one_atom = Ret one_atom_adi.
Proof. vm_compute. reflexivity. Qed.

Lemma compute_adiabatic_idempotent_witness :
  compute_adiabatic one_atom_adi = Ret one_atom_adi
  /\ @compute_adiabatic (other_solver.with_solver _ zero_solver)
       (other_solver.over zero_solver one_atom_adi)
     = Ret (other_solver.over zero_solver one_atom_adi).
Proof.
  exact (compute_adiabatic_idempotent one_atom one_atom_adi zero_solver
           one_atom_adiabatic).
Defined.

(** The first call does use the solver: over the other solver it stores the
    zero matrix as [ham_adi]. *)
Example compute_adiabatic_uses_solver :
  exists h2,
    @compute_adiabatic (other_solver.with_solver _ zero_solver)
      (other_solver.over zero_solver one_atom) = Ret h2
    /\ ham_adi h2 = MATRIX_zero 1 1
    /\ ham_adi one_atom_adi = mkMATRIX 1 1 [0 + 4].
Proof. eexists. split; [vm_compute; reflexivity|]. split; reflexivity. Qed.

Lemma compute_adiabatic_keeps_diabatic_witness :
  ham_dia one_atom_adi = ham_dia one_atom_dia
  /\ d1ham_dia one_atom_adi = d1ham_dia one_atom_dia
  /\ d2ham_dia one_atom_adi = d2ham_dia one_atom_dia
  /\ status_dia one_atom_adi = status_dia one_atom_dia
  /\ q one_atom_adi = q one_atom_dia /\ v one_atom_adi = v one_atom_dia
  /\ _syst one_atom_adi = _syst one_atom_dia
  /\ mm_ham one_atom_adi = mm_ham one_atom_dia
  /\ calc_calls one_atom_adi = calc_calls one_atom_dia.
Proof.
  exact (compute_adiabatic_keeps_diabatic one_atom one_atom_dia one_atom_adi
           one_atom_run one_atom_adiabatic).
Defined.

Lemma one_atom_atoms (res : R) (its : list mock_interaction)
    (syst' : mock_system) (calls : nat) :
  calculate_loop (interactions (mklistHamiltonian_MM [mk_mock_interaction 0 0]))
    (zero_forces_and_torques
       (set_atomic_q [1; 2; 3] (mk_mock_system [4; 0; 0] [mkVECTOR 0 0 0])))
    (calc_calls one_atom)
  = Ret (res, its, syst', calls) ->
  (0 <= 3 * Number_of_atoms syst' <= nnucl one_atom)%Z.
Proof.
  intros Hrun. vm_compute in Hrun. injection Hrun as _ _ <- _.
  simpl. lia.
Qed.

Lemma set_q_then_compute_diabatic_witness :
  exists h1 h2,
    set_q [1; 2; 3] one_atom = Ret h1
    /\ compute_diabatic h1 = Ret h2
    /\ status_dia h2 = 1%Z
    /\ calc_calls h2 = (0 + 1)%nat.
Proof.
  apply (set_q_then_compute_diabatic [1; 2; 3] one_atom
           (mk_mock_system [4; 0; 0] [mkVECTOR 0 0 0])
           (@mklistHamiltonian_MM mock_services [mk_mock_interaction 0 0]));
    [exact one_atom_wf|simpl; lia|reflexivity|reflexivity|reflexivity
    |reflexivity|exact one_atom_atoms].
Defined.

Lemma set_v_then_compute_diabatic_witness :
  exists h1,
    set_v [1; 2; 3] one_atom_dia = Ret h1
    /\ compute_diabatic h1 = Ret h1
    /\ calc_calls h1 = 1%nat
    /\ ham_dia h1 = ham_dia one_atom_dia
    /\ d1ham_dia h1 = d1ham_dia one_atom_dia
    /\ d2ham_dia h1 = d2ham_dia one_atom_dia
    /\ status_adi h1 = 0%Z.
Proof.
  apply (set_v_then_compute_diabatic [1; 2; 3] one_atom_dia pulled);
    [simpl; unfold INT_MAX; lia|discriminate|reflexivity|reflexivity].
Defined.

Lemma compute_diabatic_no_model_witness :
  compute_diabatic fresh = Ret (with_status_dia 1 fresh)
  /\ forall h1, compute_diabatic fresh = Ret h1 ->
       compute_diabatic h1 = Ret h1
       /\ ham_dia h1 = ham_dia fresh /\ d1ham_dia h1 = d1ham_dia fresh
       /\ calc_calls h1 = calc_calls fresh.
Proof.
  apply (compute_diabatic_no_model fresh 0);
    [reflexivity|reflexivity|discriminate].
Defined.

Lemma two_atoms_wf : wf two_atoms.
Proof.
  constructor; simpl; try (unfold INT_MAX; lia); try reflexivity;
    repeat constructor.
Qed.

Lemma compute_diabatic_too_many_atoms_witness :
  compute_diabatic two_atoms = Fault.
Proof.
  eapply (compute_diabatic_too_many_atoms two_atoms);
    [exact two_atoms_wf|simpl; lia|reflexivity|reflexivity|reflexivity
    |reflexivity|vm_compute; reflexivity|simpl; lia].
Defined.

Lemma no_state_wf : wf no_state.
Proof.
  constructor; simpl; try (unfold INT_MAX; lia); try reflexivity;
    repeat constructor.
Qed.

Lemma compute_diabatic_no_state_witness :
  compute_diabatic no_state = Fault.
Proof.
  eapply (compute_diabatic_no_state no_state);
    [exact no_state_wf|reflexivity|reflexivity|reflexivity|reflexivity
    |reflexivity].
Defined.

Lemma fresh_selects_MM : set_Hamiltonian_type "MM" fresh = Ret fresh_MM.
Proof. reflexivity. Qed.

Lemma set_Hamiltonian_type_idempotent_witness :
  set_Hamiltonian_type "MM" fresh_MM = Ret fresh_MM.
Proof.
  exact (set_Hamiltonian_type_idempotent fresh fresh_MM fresh_selects_MM).
Defined.

End more_runs.

(** ** The single-surface forces and the store of line 77 *)

Section single_surface_run.

Import libdyn spec models.

Open Scope R_scope.

(** C7.  A run of the single-surface forces ([opt = 1]) on two degrees of
    freedom with the active state 1, where
    [-Re(dHdq(istate,istate,k)) = [-3; -4]].  The call returns these forces
    only if the local [k], which line 77 reads before it has a value, holds
    0 or 1; for any other value the store [mol->f[k] = 0.0] is outside [f]
    and the call has no result. *)
Theorem compute_forces_single_surface_stray (k0 : Z) :
  forces_FSSH 2 el2 (mk_table_ham [0; 0]) = [-3; -4]
  /\ compute_forces k0 mol2 el2 (mk_table_ham []) 1
     = if ((0 <=? k0) && (k0 <? 2))%Z
       then Ret (with_f [-3; -4] mol2, mk_table_ham [0; 0])
       else Fault.
Proof.
  split; [exact forces_FSSH_el2|].
  destruct (Z.leb_spec 0 k0) as [Hlo|Hlo];
    [destruct (Z.ltb_spec k0 2) as [Hhi|Hhi]|]; simpl.
  - destruct (compute_forces_single_surface k0 mol2 el2 (mk_table_ham [])
                (mk_table_ham [0; 0]) (mk_table_ham [0; 0]))
      as (Hin & _); [reflexivity|reflexivity|reflexivity|].
    rewrite Hin by (right; simpl; lia). simpl.
    now rewrite forces_FSSH_el2.
  - eapply compute_forces_stray_fault;
      [reflexivity|reflexivity|simpl; lia|simpl; lia].
  - eapply compute_forces_stray_fault;
      [reflexivity|reflexivity|simpl; lia|simpl; lia].
Qed.

End single_surface_run.
